(** * miniredis/sentinel: a shallow embedding of the Sentinel test double

    The Go package [sentinel] (files [options.go] and [sentinel.go]) is
    embedded as state-passing Rocq functions.  Pointers to emulated data
    nodes are optional handles, Go slices are slice headers over a heap of
    backing arrays (so that [append] aliases exactly as it does in Go), the
    embedded [sync.Mutex] shows up as [EvLock] / [EvUnlock] events in the
    access log every method produces, and a nil dereference is the outcome
    [Panic]. *)

From Stdlib Require Import ZArith Ascii String DecimalString DecimalZ DecimalPos.
From stdpp Require Import base option list strings gmap.

Local Open Scope string_scope.
Local Open Scope list_scope.

(** ** Data nodes and slices *)

(** [*miniredis.Miniredis]: [None] is the nil pointer, [Some a] the node
    living at address [a].  The package never looks inside a node. *)
Definition Miniredis : Type := option nat.

(** A backing array of node pointers, and the heap of all backing arrays;
    an array is named by its index in the heap. *)
Abbreviation Heap := (list (list Miniredis)).

(** The header of a non-nil [[]*miniredis.Miniredis]: backing array,
    offset of the first element, length and capacity. *)
Record slice : Type := mkSlice {
  sl_arr : nat;
  sl_off : nat;
  sl_len : nat;
  sl_cap : nat
}.

(** A slice value: [None] is the nil slice. *)
Definition Slice : Type := option slice.

(** The elements a slice denotes in a heap ([len] elements from [off]). *)
Definition contents (h : Heap) (v : Slice) : list Miniredis :=
  match v with
  | None => []
  | Some s => take (sl_len s) (drop (sl_off s) (default [] (h !! sl_arr s)))
  end.

(** The header points into the heap and stays inside its array. *)
Definition slice_ok (h : Heap) (v : Slice) : Prop :=
  match v with
  | None => True
  | Some s =>
      sl_len s <= sl_cap s /\
      exists a, h !! sl_arr s = Some a /\ sl_off s + sl_cap s <= length a
  end.

(** No spare capacity behind the last element: the next [append] has to
    move the elements to a new array. *)
Definition slice_full (v : Slice) : Prop :=
  match v with
  | None => True
  | Some s => sl_len s = sl_cap s
  end.

Section GoRuntime.

(** The Go runtime picks the capacity of a grown slice; the package does
    not.  [spare old need] is the number of slots the runtime adds beyond
    the [need] elements when it grows a slice of capacity [old]. *)
Variable spare : nat -> nat -> nat.

(** The built-in [append(v, r)] for one element. *)
Definition append (v : Slice) (r : Miniredis) (h : Heap) : Slice * Heap :=
  match v with
  | Some s =>
      if decide (sl_len s < sl_cap s)
      then (Some (mkSlice (sl_arr s) (sl_off s) (S (sl_len s)) (sl_cap s)),
            alter (fun a => <[sl_off s + sl_len s := r]> a) (sl_arr s) h)
      else
        let extra := spare (sl_cap s) (S (sl_len s)) in
        (Some (mkSlice (length h) 0 (S (sl_len s)) (S (sl_len s) + extra)),
         h ++ [contents h v ++ r :: replicate extra None])
  | None =>
      let extra := spare 0 1 in
      (Some (mkSlice (length h) 0 1 (1 + extra)),
       h ++ [r :: replicate extra None])
  end.

End GoRuntime.

(** The composite literal [[]*miniredis.Miniredis{m}]: a new one-element
    array. *)
Definition slice_lit1 (m : Miniredis) (h : Heap) : Slice * Heap :=
  (Some (mkSlice (length h) 0 1 1), h ++ [[m]]).

(** ** options.go *)

Module options.

Record Options : Type := mkOptions {
  masterName : string;
  master : Miniredis;
  replicas : Slice
}.

(** The Go type [Option] is a function taking a pointer to [Options]: the
    mutator as a function on the value it is handed. *)
Definition Option : Type := Options -> Options.

Definition defaultOptions : Options :=
  {| masterName := "mymaster"; master := None; replicas := None |}.

Definition WithMasterName (name : string) : Option :=
  fun o => {| masterName := name; master := master o; replicas := replicas o |}.

Definition WithMaster (m : Miniredis) : Option :=
  fun o => {| masterName := masterName o; master := m; replicas := replicas o |}.

Definition WithReplicas (rs : Slice) : Option :=
  fun o => {| masterName := masterName o; master := master o; replicas := rs |}.

(** [copystructure.Copy] is a call into the library
    github.com/mitchellh/copystructure, whose code is not part of the
    package.  The library builds a new struct and copies the exported
    fields into it; a field that is not exported is skipped and stays at
    its zero value.  Every field of [Options] is unexported, so whatever
    [Options] goes in, the zero [Options] comes out: the empty master
    name, the nil master and the nil replica list. *)
Definition Copy (o : Options) : Options :=
  {| masterName := EmptyString; master := None; replicas := None |}.

Definition GetOpts (opt : list Option) : Options :=
  fold_left (fun opts o => o opts) opt (Copy defaultOptions).

End options.

(** ** The connection server (external collaborator)

    [server.Server], [server.Peer] and the operating system's listener
    table belong to the imported package
    [github.com/alicebob/miniredis/server]; the spec describes them only
    through the interface the controller needs. *)

(** [connCtx] of sentinel.go: all state of a single connection. *)
Record connCtx : Type := mkConnCtx {
  authenticated : bool
}.

(** [strconv.Itoa] and the [%d] verb of [fmt.Sprintf]. *)
Definition Itoa (z : Z) : string := NilEmpty.string_of_int (Z.to_int z).

Module server.

(** [net.TCPAddr], as far as the package reads it. *)
Record TCPAddr : Type := mkTCPAddr {
  IP : string;
  Port : Z
}.

(** Does the byte [c] occur in [s]? *)
Fixpoint hasByte (c : ascii) (s : string) : bool :=
  match s with
  | EmptyString => false
  | String d rest => Ascii.eqb d c || hasByte c rest
  end.

(** [s] cut at the first [c]: what comes before it and what comes after. *)
Fixpoint cutByte (c : ascii) (s : string) : option (string * string) :=
  match s with
  | EmptyString => None
  | String d rest =>
      if Ascii.eqb d c then Some (EmptyString, rest)
      else match cutByte c rest with
           | Some (l, r) => Some (String d l, r)
           | None => None
           end
  end.

(** [net.JoinHostPort]: a host with a colon in it is an IPv6 literal and
    goes between brackets. *)
Definition JoinHostPort (host port : string) : string :=
  if hasByte ":" host then "[" +:+ host +:+ "]:" +:+ port
  else host +:+ ":" +:+ port.

(** [net.TCPAddr.String], for an address without a zone; [IP] holds the
    text [net.IP.String] gives. *)
Definition TCPAddr_String (a : TCPAddr) : string :=
  JoinHostPort (IP a) (Itoa (Port a)).

(** Modelled from the spec: a bound connection server, with the address
    it resolved, the command names registered on it and its live and
    cumulative connection counts. *)
Record Server : Type := mkServer {
  Addr : TCPAddr;
  registered : list string;
  ClientsLen : Z;
  TotalConnections : Z
}.

(** A reply on the wire. *)
Inductive Reply : Type :=
  | ReplyError (msg : string)
  | ReplyInline (msg : string).

(** Modelled from the spec: a connection, with its opaque context slot and
    the replies written to it so far.  The slot is written by [getCtx]
    only, so it is nil or a [connCtx]. *)
Record Peer : Type := mkPeer {
  Ctx : option connCtx;
  written : list Reply
}.

Definition WriteError (msg : string) (c : Peer) : Peer :=
  {| Ctx := Ctx c; written := written c ++ [ReplyError msg] |}.

(** Modelled from the spec: the listener table of the host.  [busy] are
    the ports that have a live listener; [ephemeral] are the ports the
    operating system will hand out, in order, to a bind on port 0. *)
Record Net : Type := mkNet {
  busy : list Z;
  ephemeral : list Z
}.

(** [net.SplitHostPort].  An address that opens with a bracket has its
    host between that bracket and the first closing one, which a colon and
    the port must follow.  Any other address has its host before its only
    colon.  A second colon outside the brackets, a missing colon and a
    stray bracket are errors. *)
Definition SplitHostPort (a : string) : option (string * string) :=
  match a with
  | EmptyString => None
  | String c t =>
      if Ascii.eqb c "["%char then
        match cutByte "]" t with
        | Some (host, String d p) =>
            if Ascii.eqb d ":"%char && negb (hasByte ":" p) &&
               negb (hasByte "[" host) && negb (hasByte "[" p) &&
               negb (hasByte "]" p)
            then Some (host, p) else None
        | _ => None
        end
      else
        match cutByte ":" a with
        | Some (host, p) =>
            if negb (hasByte ":" p) && negb (hasByte "[" a) &&
               negb (hasByte "]" a)
            then Some (host, p) else None
        | None => None
        end
  end.

(** The empty address stands for any host and port 0. *)
Definition hostport (a : string) : option (string * string) :=
  match a with
  | EmptyString => Some (EmptyString, EmptyString)
  | _ => SplitHostPort a
  end.

(** Modelled from the spec: the address a listener reports for the host
    it was asked to bind.  A wildcard host (none, 0.0.0.0 or ::) is
    reported as [::], the dual-stack wildcard; an IP literal is reported
    as it is.  Resolving a host name is the business of the host's
    resolver: a name is kept as it was given. *)
Definition listenerIP (host : string) : string :=
  if String.eqb host EmptyString || String.eqb host "0.0.0.0" ||
     String.eqb host "::"
  then "::" else host.

(** A port is a run of decimal digits (none at all means 0) that stays
    below 65536. *)
Definition parsePort (p : string) : option Z :=
  match NilEmpty.uint_of_string p with
  | Some d => let q := Z.of_uint d in
              if bool_decide (q <= 65535)%Z then Some q else None
  | None => None
  end.

Definition bind_port (host : string) (q : Z) (n : Net) : (TCPAddr + string) * Net :=
  if bool_decide (q ∈ busy n)
  then (inr "bind: address already in use", n)
  else (inl (mkTCPAddr (listenerIP host) q), mkNet (q :: busy n) (ephemeral n)).

(** Modelled from the spec: binding accepts [host:port], [:port] and
    [host:0]; port 0 asks for an ephemeral port; an address in use or
    otherwise unbindable is a bind error, and a failed bind leaves the
    listener table as it was.  The table knows ports only, so it is exact
    for listeners on one host, as [Start] makes them on 127.0.0.1; a port
    given by a service name is not looked up. *)
Definition listen (a : string) (n : Net) : (TCPAddr + string) * Net :=
  match hostport a with
  | None => (inr "missing port in address", n)
  | Some (host, p) =>
      match parsePort p with
      | None => (inr "invalid port", n)
      | Some 0%Z =>
          match ephemeral n with
          | q :: rest =>
              if bool_decide (0 < q <= 65535)%Z && negb (bool_decide (q ∈ busy n))
              then (inl (mkTCPAddr (listenerIP host) q), mkNet (q :: busy n) rest)
              else (inr "bind: no ephemeral port", n)
          | [] => (inr "bind: no ephemeral port", n)
          end
      | Some q => bind_port host q n
      end
  end.

(** Modelled from the spec: [server.NewServer(addr)] binds a listener and
    returns the server, or the bind error. *)
Definition NewServer (a : string) (n : Net) : (Server + string) * Net :=
  match listen a n with
  | (inl ta, n') => (inl (mkServer ta [] 0%Z 0%Z), n')
  | (inr e, n') => (inr e, n')
  end.

(** Modelled from the spec: [Register] adds a command handler. *)
Definition Register (cmd : string) (s : Server) : Server :=
  mkServer (Addr s) (cmd :: registered s) (ClientsLen s) (TotalConnections s).

(** Modelled from the spec: closing a server releases its listener. *)
Definition Close (s : Server) (n : Net) : Net :=
  mkNet (filter (fun q => q ≠ Port (Addr s)) (busy n)) (ephemeral n).

End server.

(** ** sentinel.go: state, access log and the method monad *)

(** The Go [error] value: [None] is nil. *)
Definition error : Type := option string.

(** The fields of [Sentinel] behind the embedded mutex. *)
Inductive Field : Type := Fsrv | Fport | Fpassword | Fmaster | Freplicas.

(** What a method does to the controller, in program order: taking and
    releasing the embedded [sync.Mutex], and reading or writing a field. *)
Inductive Event : Type :=
  | EvLock
  | EvUnlock
  | EvRead (f : Field)
  | EvWrite (f : Field).

(** How a call ends: it returns, or it panics. *)
Inductive Outcome (A : Type) : Type :=
  | Ret (a : A)
  | Panic (msg : string).
Arguments Ret {A} a.
Arguments Panic {A} msg.

Module sentinel.

(** [type Sentinel struct].  The embedded [sync.Mutex] has no field here:
    calls run one after the other, so the mutex is free at every call and
    [Lock] returns at once; taking and releasing it are events of the
    access log.  The condition variable [signal] is never used. *)
Record Sentinel : Type := mkSentinel {
  srv : option server.Server;
  port : Z;
  password : string;
  master : Miniredis;
  replicas : Slice
}.

(** Everything a method can reach: the receiver, the heap of backing
    arrays, the host's listener table and the live connections. *)
Record World : Type := mkWorld {
  this : Sentinel;
  heap : Heap;
  net : server.Net;
  peers : gmap nat server.Peer
}.

Definition M (A : Type) : Type := World -> Outcome A * World * list Event.

Definition ret {A} (a : A) : M A := fun w => (Ret a, w, []).

Definition panic {A} (msg : string) : M A := fun w => (Panic msg, w, []).

Definition bind {A B} (m : M A) (k : A -> M B) : M B := fun w =>
  match m w with
  | (Ret a, w1, t1) =>
      match k a w1 with
      | (r, w2, t2) => (r, w2, t1 ++ t2)
      end
  | (Panic msg, w1, t1) => (Panic msg, w1, t1)
  end.

Notation "'let*' x := m 'in' k" := (bind m (fun x => k))
  (at level 10, x name, m at level 100, k at level 200).

(** The three views of one call. *)
Definition result {A} (m : M A) (w : World) : Outcome A := (m w).1.1.
Definition exec {A} (m : M A) (w : World) : World := (m w).1.2.
Definition log {A} (m : M A) (w : World) : list Event := (m w).2.

(** [s.Lock()] and [s.Unlock()]. *)
Definition Lock : M unit := fun w => (Ret tt, w, [EvLock]).
Definition Unlock : M unit := fun w => (Ret tt, w, [EvUnlock]).

(** [s.Lock(); defer s.Unlock(); body]: the deferred call runs when the
    body returns and also when it panics. *)
Definition locked {A} (body : M A) : M A := fun w =>
  match body w with
  | (r, w1, t) => (r, w1, EvLock :: t ++ [EvUnlock])
  end.

(** Reading and writing a field of the receiver. *)
Definition load {A} (f : Field) (proj : Sentinel -> A) : M A := fun w =>
  (Ret (proj (this w)), w, [EvRead f]).

Definition store (f : Field) (upd : Sentinel -> Sentinel) : M unit := fun w =>
  (Ret tt, mkWorld (upd (this w)) (heap w) (net w) (peers w), [EvWrite f]).

Definition set_srv (v : option server.Server) (s : Sentinel) : Sentinel :=
  mkSentinel v (port s) (password s) (master s) (replicas s).
Definition set_port (v : Z) (s : Sentinel) : Sentinel :=
  mkSentinel (srv s) v (password s) (master s) (replicas s).
Definition set_password (v : string) (s : Sentinel) : Sentinel :=
  mkSentinel (srv s) (port s) v (master s) (replicas s).
Definition set_master (v : Miniredis) (s : Sentinel) : Sentinel :=
  mkSentinel (srv s) (port s) (password s) v (replicas s).
Definition set_replicas (v : Slice) (s : Sentinel) : Sentinel :=
  mkSentinel (srv s) (port s) (password s) (master s) v.

(** The message of the runtime panic for a nil pointer. *)
Definition nil_deref : string :=
  "invalid memory address or nil pointer dereference".

(** Following a [*server.Server]: nil panics. *)
Definition deref (p : option server.Server) : M server.Server :=
  match p with
  | Some x => ret x
  | None => panic nil_deref
  end.

(** Heap, listener table and connections, lifted into the monad. *)
Definition on_heap {A} (f : Heap -> A * Heap) : M A := fun w =>
  match f (heap w) with
  | (a, h) => (Ret a, mkWorld (this w) h (net w) (peers w), [])
  end.

Definition on_net {A} (f : server.Net -> A * server.Net) : M A := fun w =>
  match f (net w) with
  | (a, n) => (Ret a, mkWorld (this w) (heap w) n (peers w), [])
  end.

(** Following a [*server.Peer]: a pointer to no connection panics. *)
Definition peer (c : nat) : M server.Peer := fun w =>
  match peers w !! c with
  | Some p => (Ret p, w, [])
  | None => (Panic nil_deref, w, [])
  end.

Definition set_peer (c : nat) (p : server.Peer) : M unit := fun w =>
  (Ret tt, mkWorld (this w) (heap w) (net w) (<[c := p]> (peers w)), []).

(** *** The methods *)

(** [strings.ToLower] walks the bytes first: a string of ASCII bytes only
    is lowered byte by byte, anything else goes through the Unicode
    tables. *)
Definition isUpper (c : ascii) : bool :=
  (65 <=? nat_of_ascii c)%nat && (nat_of_ascii c <=? 90)%nat.

Definition lowerByte (c : ascii) : ascii :=
  if isUpper c then ascii_of_nat (nat_of_ascii c + 32) else c.

Fixpoint isASCII (s : string) : bool :=
  match s with
  | EmptyString => true
  | String c rest => (nat_of_ascii c <? 128)%nat && isASCII rest
  end.

Fixpoint mapBytes (f : ascii -> ascii) (s : string) : string :=
  match s with
  | EmptyString => EmptyString
  | String c rest => String (f c) (mapBytes f rest)
  end.

Section Lowering.

(** What [strings.ToLower] does to a string with a byte outside ASCII is
    the standard library's business. *)
Variable unicodeToLower : string -> string.

Definition ToLower (s : string) : string :=
  if isASCII s then mapBytes lowerByte s else unicodeToLower s.

Definition errWrongNumber (cmd : string) : string :=
  "ERR wrong number of arguments for '" +:+ ToLower cmd +:+ "' command".

End Lowering.

(** [NewSentinel(opts...)]: the zero [Sentinel], then master and replicas
    from the resolved options.  The one-element default list is a new
    array of its own. *)
Definition NewSentinel (opts : list options.Option) (h : Heap) : Sentinel * Heap :=
  let s := mkSentinel None 0%Z EmptyString None None in
  let o := options.GetOpts opts in
  let '(s, h) :=
    match options.master o with
    | Some _ =>
        let '(dflt, h') := slice_lit1 (options.master o) h in
        (set_replicas dflt (set_master (options.master o) s), h')
    | None => (s, h)
    end in
  let s :=
    match options.replicas o with
    | Some _ => set_replicas (options.replicas o) s
    | None => s
    end in
  (s, h).

Definition WithMaster (m : Miniredis) : M unit :=
  store Fmaster (set_master m).

Definition Master : M Miniredis :=
  load Fmaster master.

Section Append.

Variable spare : nat -> nat -> nat.

Definition AddReplica (r : Miniredis) : M unit :=
  let* old := load Freplicas replicas in
  let* new := on_heap (append spare old r) in
  store Freplicas (set_replicas new).

End Append.

Definition SetReplicas (rs : Slice) : M unit :=
  store Freplicas (set_replicas rs).

Definition Replicas : M Slice :=
  load Freplicas replicas.

(** Modelled from the spec: [commandsPing(s)] lives in a file of the
    package that is not at hand; the spec has [start] register the command
    handlers, minimally PING, on the listener. *)
Definition commandsPing : M unit :=
  let* p := load Fsrv srv in
  let* x := deref p in
  fun w => (Ret tt,
            mkWorld (set_srv (Some (server.Register "PING" x)) (this w))
                    (heap w) (net w) (peers w),
            []).

Definition start (sv : server.Server) : M error :=
  locked (
    let* _ := store Fsrv (set_srv (Some sv)) in
    let* _ := store Fport (set_port (server.Port (server.Addr sv))) in
    let* _ := commandsPing in
    ret None).

Definition Start : M error :=
  let* p := load Fport port in
  let* r := on_net (server.NewServer ("127.0.0.1:" +:+ Itoa p)) in
  match r with
  | inr err => ret (Some err)
  | inl sv => start sv
  end.

Definition StartAddr (addr : string) : M error :=
  let* r := on_net (server.NewServer addr) in
  match r with
  | inr err => ret (Some err)
  | inl sv => start sv
  end.

Definition Restart : M error := Start.

(** [Run()]: a controller made without options, and what [Start] on it
    returns; the controller is the receiver of the world that comes back. *)
Definition Run (h : Heap) (n : server.Net) (ps : gmap nat server.Peer) :
    Outcome error * World * list Event :=
  Start (mkWorld (NewSentinel [] h).1 (NewSentinel [] h).2 n ps).

Definition Close : M unit :=
  let* _ := Lock in
  let* p := load Fsrv srv in
  match p with
  | None =>
      let* _ := Unlock in
      ret tt
  | Some _ =>
      let* sv := load Fsrv srv in
      let* _ := store Fsrv (set_srv None) in
      let* _ := Unlock in
      let* x := deref sv in
      on_net (fun n => (tt, server.Close x n))
  end.

Definition RequireAuth (pw : string) : M unit :=
  locked (store Fpassword (set_password pw)).

Definition Addr : M string :=
  locked (
    let* p := load Fsrv srv in
    let* x := deref p in
    ret (server.TCPAddr_String (server.Addr x))).

Definition Host : M string :=
  locked (
    let* p := load Fsrv srv in
    let* x := deref p in
    ret (server.IP (server.Addr x))).

Definition Port : M string :=
  locked (
    let* p := load Fsrv srv in
    let* x := deref p in
    ret (Itoa (server.Port (server.Addr x)))).

Definition CurrentConnectionCount : M Z :=
  locked (
    let* p := load Fsrv srv in
    let* x := deref p in
    ret (server.ClientsLen x)).

Definition TotalConnectionCount : M Z :=
  locked (
    let* p := load Fsrv srv in
    let* x := deref p in
    ret (server.TotalConnections x)).

(** [getCtx(c)]: the connection's context, made on first use.  The
    pointer it returns is kept as the connection itself: the context has
    no other owner. *)
Definition getCtx (c : nat) : M connCtx :=
  let* p := peer c in
  match server.Ctx p with
  | None =>
      let* _ := set_peer c (server.mkPeer (Some (mkConnCtx false)) (server.written p)) in
      ret (mkConnCtx false)
  | Some x => ret x
  end.

Definition setAuthenticated (c : nat) : M unit :=
  let* _ := getCtx c in
  let* p := peer c in
  set_peer c (server.mkPeer (Some (mkConnCtx true)) (server.written p)).

Definition handleAuth (c : nat) : M bool :=
  locked (
    let* pw := load Fpassword password in
    if decide (pw = EmptyString) then ret true
    else
      let* x := getCtx c in
      if negb (authenticated x) then
        let* p := peer c in
        let* _ := set_peer c (server.WriteError "NOAUTH Authentication required." p) in
        ret false
      else ret true).

End sentinel.

Import sentinel.

(** ** Observations used by the statements *)

(** A new controller in its surroundings. *)
Definition boot (opts : list options.Option) (h : Heap) (n : server.Net)
    (ps : gmap nat server.Peer) : World :=
  mkWorld (NewSentinel opts h).1 (NewSentinel opts h).2 n ps.

(** What a caller of [Replicas()] sees when it ranges over the slice it
    got back. *)
Definition seen_replicas (w : World) : list Miniredis :=
  match result Replicas w with
  | Ret v => contents (heap w) v
  | Panic _ => []
  end.

(** What a caller of [Master()] gets. *)
Definition seen_master (w : World) : Miniredis :=
  match result Master w with
  | Ret m => m
  | Panic _ => None
  end.

(** The listener the controller holds, and the port that listener is
    bound to. *)
Definition listening_port (w : World) : option Z :=
  server.Port <$> (server.Addr <$> srv (this w)).

(** The authenticated flag of connection [c]; a connection without a
    context yet is unauthenticated. *)
Definition is_authenticated (c : nat) (w : World) : bool :=
  match peers w !! c with
  | Some p =>
      match server.Ctx p with
      | Some x => authenticated x
      | None => false
      end
  | None => false
  end.

(** The replies written so far to connection [c]. *)
Definition replies (c : nat) (w : World) : list server.Reply :=
  match peers w !! c with
  | Some p => server.written p
  | None => []
  end.

(** A log is guarded when every field access in it happens between a
    [Lock] and the [Unlock] that follows it. *)
Fixpoint guarded_from (held : bool) (t : list Event) : bool :=
  match t with
  | [] => true
  | EvLock :: t' => guarded_from true t'
  | EvUnlock :: t' => guarded_from false t'
  | EvRead _ :: t' => held && guarded_from held t'
  | EvWrite _ :: t' => held && guarded_from held t'
  end.

Definition guarded (t : list Event) : bool := guarded_from false t.

(** Two controllers side by side: the receiver of the next call sits in
    [world], the other one waits in [other]; both live on one heap. *)
Record Duo : Type := mkDuo {
  world : World;
  other : Sentinel
}.

Definition swap (d : Duo) : Duo :=
  mkDuo (mkWorld (other d) (heap (world d)) (net (world d)) (peers (world d)))
        (this (world d)).

Definition on_first {A} (m : M A) (d : Duo) : Duo :=
  mkDuo (exec m (world d)) (other d).

Definition on_second {A} (m : M A) (d : Duo) : Duo :=
  swap (on_first m (swap d)).

(** Two controllers made one after the other from the same mutators. *)
Definition construct_two (opts : list options.Option) (h : Heap)
    (n : server.Net) (ps : gmap nat server.Peer) : Duo :=
  let '(a, h1) := NewSentinel opts h in
  let '(b, h2) := NewSentinel opts h1 in
  mkDuo (mkWorld a h2 n ps) b.

(** [AddReplica] calls on either controller, in any order. *)
Inductive Side : Type := First | Second.

Section Calls.

Variable spare : nat -> nat -> nat.

Definition add_replica (d : Duo) (call : Side * Miniredis) : Duo :=
  match call with
  | (First, r) => on_first (AddReplica spare r) d
  | (Second, r) => on_second (AddReplica spare r) d
  end.

Definition add_replicas (calls : list (Side * Miniredis)) (d : Duo) : Duo :=
  fold_left add_replica calls d.

(** The operations of the core, as calls on one controller and its
    connections. *)
Inductive Op : Type :=
  | OpNewSentinel (opts : list options.Option)
  | OpWithMaster (m : Miniredis)
  | OpMaster
  | OpAddReplica (r : Miniredis)
  | OpSetReplicas (rs : Slice)
  | OpReplicas
  | OpStart
  | OpStartAddr (addr : string)
  | OpRestart
  | OpClose
  | OpRequireAuth (pw : string)
  | OpAddr
  | OpHost
  | OpPort
  | OpCurrentConnectionCount
  | OpTotalConnectionCount
  | OpHandleAuth (c : nat)
  | OpGetCtx (c : nat)
  | OpSetAuthenticated (c : nat).

Definition step (w : World) (o : Op) : World :=
  match o with
  | OpNewSentinel opts => boot opts (heap w) (net w) (peers w)
  | OpWithMaster m => exec (WithMaster m) w
  | OpMaster => exec Master w
  | OpAddReplica r => exec (AddReplica spare r) w
  | OpSetReplicas rs => exec (SetReplicas rs) w
  | OpReplicas => exec Replicas w
  | OpStart => exec Start w
  | OpStartAddr addr => exec (StartAddr addr) w
  | OpRestart => exec Restart w
  | OpClose => exec Close w
  | OpRequireAuth pw => exec (RequireAuth pw) w
  | OpAddr => exec Addr w
  | OpHost => exec Host w
  | OpPort => exec Port w
  | OpCurrentConnectionCount => exec CurrentConnectionCount w
  | OpTotalConnectionCount => exec TotalConnectionCount w
  | OpHandleAuth c => exec (handleAuth c) w
  | OpGetCtx c => exec (getCtx c) w
  | OpSetAuthenticated c => exec (setAuthenticated c) w
  end.

Definition steps (ops : list Op) (w : World) : World :=
  fold_left step ops w.

End Calls.

(** Two slice values cannot write into each other's elements: they sit on
    different arrays, or both are full, so that the next [append] on
    either one moves it to a new array. *)
Definition apart (v u : Slice) : Prop :=
  match v, u with
  | Some x, Some y =>
      sl_arr x <> sl_arr y \/ (sl_len x = sl_cap x /\ sl_len y = sl_cap y)
  | _, _ => True
  end.

(** Two controllers whose replica lists are well-formed on the shared heap
    and apart. *)
Definition duo_ok (d : Duo) : Prop :=
  slice_ok (heap (world d)) (replicas (this (world d))) /\
  slice_ok (heap (world d)) (replicas (other d)) /\
  apart (replicas (this (world d))) (replicas (other d)).

(** The three mutators the package offers, as data. *)
Inductive Mutator : Type :=
  | MName (name : string)
  | MMaster (m : Miniredis)
  | MReplicas (rs : Slice).

Definition mutator (x : Mutator) : options.Option :=
  match x with
  | MName name => options.WithMasterName name
  | MMaster m => options.WithMaster m
  | MReplicas rs => options.WithReplicas rs
  end.

Definition name_of (x : Mutator) : option string :=
  match x with MName name => Some name | _ => None end.

Definition master_of (x : Mutator) : option Miniredis :=
  match x with MMaster m => Some m | _ => None end.

Definition replicas_of (x : Mutator) : option Slice :=
  match x with MReplicas rs => Some rs | _ => None end.

Definition is_name (x : Mutator) : bool :=
  match x with MName _ => true | _ => false end.

(** A log is balanced when [Lock] is only taken while the mutex is free,
    [Unlock] only called while it is held, and the mutex is free at the
    end. *)
Fixpoint balanced_from (held : bool) (t : list Event) : bool :=
  match t with
  | [] => negb held
  | EvLock :: t' => negb held && balanced_from true t'
  | EvUnlock :: t' => held && balanced_from false t'
  | EvRead _ :: t' => balanced_from held t'
  | EvWrite _ :: t' => balanced_from held t'
  end.

Definition balanced (t : list Event) : bool := balanced_from false t.

(** The access log of one operation. *)
Definition op_log (spare : nat -> nat -> nat) (w : World) (o : Op) : list Event :=
  match o with
  | OpNewSentinel _ => []
  | OpWithMaster m => log (WithMaster m) w
  | OpMaster => log Master w
  | OpAddReplica r => log (AddReplica spare r) w
  | OpSetReplicas rs => log (SetReplicas rs) w
  | OpReplicas => log Replicas w
  | OpStart => log Start w
  | OpStartAddr addr => log (StartAddr addr) w
  | OpRestart => log Restart w
  | OpClose => log Close w
  | OpRequireAuth pw => log (RequireAuth pw) w
  | OpAddr => log Addr w
  | OpHost => log Host w
  | OpPort => log Port w
  | OpCurrentConnectionCount => log CurrentConnectionCount w
  | OpTotalConnectionCount => log TotalConnectionCount w
  | OpHandleAuth c => log (handleAuth c) w
  | OpGetCtx c => log (getCtx c) w
  | OpSetAuthenticated c => log (setAuthenticated c) w
  end.

(** The access log of the auth check. *)
Definition auth_log : list Event := [EvLock; EvRead Fpassword; EvUnlock].

(** The NOAUTH reply of [handleAuth]. *)
Definition noauth : server.Reply :=
  server.ReplyError "NOAUTH Authentication required.".

(** The elements of [u] lie on another array than [v], or among the
    elements [v] shows. *)
Definition within (u v : Slice) : Prop :=
  match u, v with
  | Some y, Some x =>
      sl_arr y <> sl_arr x \/
      (sl_off x <= sl_off y /\ sl_off y + sl_len y <= sl_off x + sl_len x)
  | _, _ => True
  end.

(** A controller that holds a listener has that listener's port in its
    port field. *)
Definition port_ok (w : World) : Prop :=
  match srv (this w) with
  | Some x => port (this w) = server.Port (server.Addr x)
  | None => True
  end.

(** * Properties *)

(** ** Heap and slice facts *)

Lemma contents_nil (h : Heap) : contents h None = [].
Proof. reflexivity. Qed.


Lemma lookup_fresh (h : Heap) (a : list Miniredis) :
  (h ++ [a]) !! length h = Some a.
Proof. apply list_lookup_middle. reflexivity. Qed.


(** ** Option resolution *)

Lemma GetOpts_nil :
  options.GetOpts [] = options.mkOptions EmptyString None None.
Proof. reflexivity. Qed.

Lemma GetOpts_nil_topology :
  options.master (options.GetOpts []) = options.master options.defaultOptions /\
  options.replicas (options.GetOpts []) = options.replicas options.defaultOptions.
Proof. split; reflexivity. Qed.

Lemma GetOpts_snoc (opts : list options.Option) (o : options.Option) :
  options.GetOpts (opts ++ [o]) = o (options.GetOpts opts).
Proof. unfold options.GetOpts. now rewrite fold_left_app. Qed.

(** ** Construction *)

Lemma NewSentinel_master (opts : list options.Option) (h : Heap) :
  master (NewSentinel opts h).1 = options.master (options.GetOpts opts).
Proof.
  unfold NewSentinel.
  destruct (options.master (options.GetOpts opts)) eqn:Em;
    destruct (options.replicas (options.GetOpts opts)); reflexivity.
Qed.

Lemma NewSentinel_explicit (opts : list options.Option) (h : Heap) (s : slice) :
  options.replicas (options.GetOpts opts) = Some s ->
  replicas (NewSentinel opts h).1 = Some s.
Proof.
  intros E. unfold NewSentinel. rewrite E.
  destruct (options.master (options.GetOpts opts)); reflexivity.
Qed.

Lemma NewSentinel_default (opts : list options.Option) (h : Heap) (a : nat) :
  options.master (options.GetOpts opts) = Some a ->
  options.replicas (options.GetOpts opts) = None ->
  NewSentinel opts h =
    (mkSentinel None 0%Z EmptyString (Some a) (Some (mkSlice (length h) 0 1 1)),
     h ++ [[Some a]]).
Proof. intros Em Er. unfold NewSentinel. now rewrite Em, Er. Qed.

Lemma NewSentinel_bare (opts : list options.Option) (h : Heap) :
  options.master (options.GetOpts opts) = None ->
  options.replicas (options.GetOpts opts) = None ->
  NewSentinel opts h = (mkSentinel None 0%Z EmptyString None None, h).
Proof. intros Em Er. unfold NewSentinel. now rewrite Em, Er. Qed.



(** C10. The method [WithMaster(m)] returns, stores [m] as the master and
    leaves every other field, the heap, the listener table and the
    connections alone, so [Replicas()] reads the same before and after.
    On a controller made without options it leaves [Replicas()] empty,
    whereas the option [WithMaster] at construction makes [Replicas()] the
    one-element list of that master. *)
Theorem C10_WithMaster_method_keeps_replicas
    (m : Miniredis) (w : World) (a : nat) (h : Heap) (n : server.Net)
    (ps : gmap nat server.Peer) :
  result (WithMaster m) w = Ret tt /\
  exec (WithMaster m) w =
    mkWorld (mkSentinel (srv (this w)) (port (this w)) (password (this w)) m
                        (replicas (this w)))
            (heap w) (net w) (peers w) /\
  seen_master (exec (WithMaster m) w) = m /\
  seen_replicas (exec (WithMaster m) w) = seen_replicas w /\
  seen_replicas (exec (WithMaster (Some a)) (boot [] h n ps)) = [] /\
  seen_replicas (boot [options.WithMaster (Some a)] h n ps) = [Some a].
Proof.
  repeat split.
  unfold seen_replicas, boot. simpl. now rewrite lookup_fresh.
Qed.

(** ** The auth check *)

Lemma is_authenticated_peer (w : World) (c : nat) (p : server.Peer) :
  peers w !! c = Some p ->
  is_authenticated c w =
    match server.Ctx p with Some x => authenticated x | None => false end.
Proof. intros E. unfold is_authenticated. now rewrite E. Qed.

(** C1. With an empty password [handleAuth] returns true and changes
    nothing, so no reply is written; this is the case for every connection
    right after [RequireAuth] with the empty password.  With a non-empty password it returns
    the connection's authenticated flag; when that flag is true nothing is
    written, and when it is false (or the connection has no context yet)
    the connection gets exactly one more reply, the error
    [NOAUTH Authentication required.], its context holds
    [authenticated = false], and everything else is as before. *)
Theorem C1_handleAuth_check (w : World) (c : nat) (p : server.Peer) :
  peers w !! c = Some p ->
  (password (this w) = EmptyString ->
     result (handleAuth c) w = Ret true /\ exec (handleAuth c) w = w) /\
  (result (handleAuth c) (exec (RequireAuth EmptyString) w) = Ret true /\
   exec (handleAuth c) (exec (RequireAuth EmptyString) w) = exec (RequireAuth EmptyString) w) /\
  (password (this w) <> EmptyString ->
     result (handleAuth c) w = Ret (is_authenticated c w) /\
     (is_authenticated c w = true -> exec (handleAuth c) w = w) /\
     (is_authenticated c w = false ->
        exec (handleAuth c) w =
          mkWorld (this w) (heap w) (net w)
            (<[c := server.mkPeer (Some (mkConnCtx false))
                      (server.written p ++
                       [server.ReplyError "NOAUTH Authentication required."])]>
               (peers w)))).
Proof.
  intros Hp. rewrite (is_authenticated_peer _ _ _ Hp).
  destruct w as [s h n ps]. simpl in *.
  unfold result, exec, handleAuth, locked, bind, load. simpl.
  split; [| split]; [intros Hpw | | intros Hpw].
  - rewrite Hpw. simpl. split; reflexivity.
  - split; reflexivity.
  - destruct (decide (password s = EmptyString)) as [E | _]; [contradiction |].
    unfold getCtx, bind, peer, set_peer, ret. simpl. rewrite Hp.
    destruct p as [[[[] ] | ] out]; simpl.
    + repeat split; intros; congruence.
    + rewrite Hp. simpl. repeat split; intros; congruence.
    + rewrite lookup_insert_eq. simpl. rewrite insert_insert_eq.
      repeat split; intros; congruence.
Qed.

(** C1 on a password-protected controller and a new connection: denied,
    with the NOAUTH reply as the only thing written. *)
Lemma C1_witness :
  let w := mkWorld (mkSentinel None 0%Z "secret" None None) []
                   (server.mkNet [] []) {[ 1%nat := server.mkPeer None [] ]} in
  result (handleAuth 1) w = Ret false /\
  replies 1 (exec (handleAuth 1) w) =
    [server.ReplyError "NOAUTH Authentication required."].
Proof.
  intros w.
  assert (Hp : peers w !! 1%nat = Some (server.mkPeer None [])) by reflexivity.
  destruct (C1_handleAuth_check w 1 _ Hp) as (_ & _ & Hset).
  assert (Hpw : password (this w) <> EmptyString) by discriminate.
  destruct (Hset Hpw) as (Hres & _ & Hden).
  split.
  - exact Hres.
  - rewrite (Hden eq_refl). reflexivity.
Defined.

(** ** Lifecycle: close, failed start, queries without a listener *)

Lemma Close_spec (w : World) :
  result Close w = Ret tt /\
  this (exec Close w) = set_srv None (this w) /\
  heap (exec Close w) = heap w /\
  peers (exec Close w) = peers w.
Proof.
  destruct w as [[[x|] p pw m rs] h n ps]; repeat split.
Qed.

Lemma Close_idle (s : Sentinel) (h : Heap) (n : server.Net)
    (ps : gmap nat server.Peer) :
  Close (mkWorld (set_srv None s) h n ps) =
    (Ret tt, mkWorld (set_srv None s) h n ps, [EvLock; EvRead Fsrv; EvUnlock]).
Proof. reflexivity. Qed.

Lemma queries_without_listener (w : World) :
  srv (this w) = None ->
  result Addr w = Panic nil_deref /\
  result Host w = Panic nil_deref /\
  result Port w = Panic nil_deref /\
  result CurrentConnectionCount w = Panic nil_deref /\
  result TotalConnectionCount w = Panic nil_deref.
Proof.
  destruct w as [[x p pw m rs] h n ps]. simpl. intros ->. repeat split.
Qed.

(** C2, as the code has it.  On a controller that was never started, and
    on any controller after [Close()], each of [Addr], [Host], [Port],
    [CurrentConnectionCount] and [TotalConnectionCount] follows the nil
    listener pointer and ends in a panic: none of them returns an error or
    a zero value. *)
Theorem C2_queries_panic_without_listener
    (opts : list options.Option) (h : Heap) (n : server.Net)
    (ps : gmap nat server.Peer) (w : World) :
  (result Addr (boot opts h n ps) = Panic nil_deref /\
   result Host (boot opts h n ps) = Panic nil_deref /\
   result Port (boot opts h n ps) = Panic nil_deref /\
   result CurrentConnectionCount (boot opts h n ps) = Panic nil_deref /\
   result TotalConnectionCount (boot opts h n ps) = Panic nil_deref) /\
  (result Addr (exec Close w) = Panic nil_deref /\
   result Host (exec Close w) = Panic nil_deref /\
   result Port (exec Close w) = Panic nil_deref /\
   result CurrentConnectionCount (exec Close w) = Panic nil_deref /\
   result TotalConnectionCount (exec Close w) = Panic nil_deref).
Proof.
  split; apply queries_without_listener.
  - unfold boot, NewSentinel. simpl.
    destruct (options.master (options.GetOpts opts));
      destruct (options.replicas (options.GetOpts opts)); reflexivity.
  - destruct (Close_spec w) as (_ & -> & _). reflexivity.
Qed.

(** C6. [Close()] always returns.  Afterwards the controller holds no
    listener and port, password, master and replica list are the ones it
    had; heap and connections are untouched, so [Master()] and
    [Replicas()] read as before.  On a controller without a listener the
    call changes nothing at all. *)
Theorem C6_Close_frame (w : World) (s : Sentinel) (h : Heap)
    (n : server.Net) (ps : gmap nat server.Peer) :
  result Close w = Ret tt /\
  this (exec Close w) =
    mkSentinel None (port (this w)) (password (this w)) (master (this w))
               (replicas (this w)) /\
  heap (exec Close w) = heap w /\
  peers (exec Close w) = peers w /\
  seen_master (exec Close w) = seen_master w /\
  seen_replicas (exec Close w) = seen_replicas w /\
  exec Close (mkWorld (set_srv None s) h n ps) = mkWorld (set_srv None s) h n ps.
Proof.
  destruct (Close_spec w) as (Hr & Ht & Hh & Hp).
  repeat split; try assumption.
  - unfold seen_master, result, Master, load. simpl. now rewrite Ht.
  - unfold seen_replicas, result, Replicas, load. simpl. now rewrite Ht, Hh.
Qed.

Lemma listen_error (a : string) (n n' : server.Net) (e : string) :
  server.listen a n = (inr e, n') -> n' = n.
Proof.
  unfold server.listen, server.bind_port.
  repeat case_match; intros; simplify_eq; reflexivity.
Qed.

Lemma NewServer_error (a : string) (n n' : server.Net) (e : string) :
  server.NewServer a n = (inr e, n') -> n' = n.
Proof.
  unfold server.NewServer.
  destruct (server.listen a n) as [[ta | e'] n''] eqn:El; intros; simplify_eq.
  now apply listen_error in El.
Qed.

Lemma start_spec (sv : server.Server) (w : World) :
  start sv w =
    (Ret None,
     mkWorld (mkSentinel (Some (server.Register "PING" sv))
                         (server.Port (server.Addr sv))
                         (password (this w)) (master (this w))
                         (replicas (this w)))
             (heap w) (net w) (peers w),
     [EvLock; EvWrite Fsrv; EvWrite Fport; EvRead Fsrv; EvUnlock]).
Proof. reflexivity. Qed.

Lemma StartAddr_cases (addr : string) (w : World) :
  StartAddr addr w =
    match server.NewServer addr (net w) with
    | (inl sv, n') =>
        (Ret None,
         mkWorld (mkSentinel (Some (server.Register "PING" sv))
                             (server.Port (server.Addr sv))
                             (password (this w)) (master (this w))
                             (replicas (this w)))
                 (heap w) n' (peers w),
         [EvLock; EvWrite Fsrv; EvWrite Fport; EvRead Fsrv; EvUnlock])
    | (inr e, n') =>
        (Ret (Some e), mkWorld (this w) (heap w) n' (peers w), [])
    end.
Proof.
  unfold StartAddr, bind, on_net.
  destruct (server.NewServer addr (net w)) as [[sv | e] n']; reflexivity.
Qed.

Lemma Start_cases (w : World) :
  Start w =
    match server.NewServer ("127.0.0.1:" +:+ Itoa (port (this w))) (net w) with
    | (inl sv, n') =>
        (Ret None,
         mkWorld (mkSentinel (Some (server.Register "PING" sv))
                             (server.Port (server.Addr sv))
                             (password (this w)) (master (this w))
                             (replicas (this w)))
                 (heap w) n' (peers w),
         [EvRead Fport; EvLock; EvWrite Fsrv; EvWrite Fport; EvRead Fsrv;
          EvUnlock])
    | (inr e, n') =>
        (Ret (Some e), mkWorld (this w) (heap w) n' (peers w), [EvRead Fport])
    end.
Proof.
  unfold Start, bind, load, on_net. simpl.
  destruct (server.NewServer _ (net w)) as [[sv | e] n']; reflexivity.
Qed.

(** C8. When [Start()] or [StartAddr(addr)] returns an error, nothing has
    changed: listener, port, password, master and replica list, and the
    heap, listener table and connections around them, are as before. *)
Theorem C8_failed_start_changes_nothing (w : World) (addr e : string) :
  (result Start w = Ret (Some e) -> exec Start w = w) /\
  (result (StartAddr addr) w = Ret (Some e) -> exec (StartAddr addr) w = w).
Proof.
  unfold result, exec. rewrite Start_cases, StartAddr_cases.
  split.
  - destruct (server.NewServer _ (net w)) as [[sv | e'] n'] eqn:En; simpl;
      intros; simplify_eq.
    apply NewServer_error in En. subst. now destruct w.
  - destruct (server.NewServer addr (net w)) as [[sv | e'] n'] eqn:En; simpl;
      intros; simplify_eq.
    apply NewServer_error in En. subst. now destruct w.
Qed.

(** C8 on a started controller whose port is still bound, and on an
    address without a port. *)
Lemma C8_witness :
  let w := exec Start (boot [] [] (server.mkNet [] [49152%Z]) ∅) in
  exec Start w = w /\ exec (StartAddr "localhost") w = w.
Proof.
  intros w. split.
  - apply (proj1 (C8_failed_start_changes_nothing
                    w EmptyString "bind: address already in use")).
    vm_compute. reflexivity.
  - apply (proj2 (C8_failed_start_changes_nothing
                    w "localhost" "missing port in address")).
    vm_compute. reflexivity.
Defined.

(** ** Addresses: printing a port and reading it back *)

Lemma hasByte_digits (c : ascii) (d : Decimal.uint) :
  c = ":"%char \/ c = "["%char \/ c = "]"%char ->
  server.hasByte c (NilEmpty.string_of_uint d) = false.
Proof.
  intros [-> | [-> | ->]]; induction d; simpl; rewrite ?IHd; reflexivity.
Qed.

Lemma hasByte_Itoa (c : ascii) (z : Z) :
  c = ":"%char \/ c = "["%char \/ c = "]"%char ->
  server.hasByte c (Itoa z) = false.
Proof.
  intros Hc. unfold Itoa. destruct z as [| p | p]; simpl.
  - destruct Hc as [-> | [-> | ->]]; reflexivity.
  - now apply hasByte_digits.
  - rewrite (hasByte_digits c _ Hc).
    destruct Hc as [-> | [-> | ->]]; reflexivity.
Qed.

Lemma hasByte_app (c : ascii) (a b : string) :
  server.hasByte c (a +:+ b) = server.hasByte c a || server.hasByte c b.
Proof.
  induction a as [| d a IH]; simpl; [reflexivity |].
  now rewrite IH, orb_assoc.
Qed.

Lemma cutByte_app (c : ascii) (h r : string) :
  server.hasByte c h = false ->
  server.cutByte c (h +:+ String c r) = Some (h, r).
Proof.
  induction h as [| d h IH]; simpl; intros Hh.
  - now rewrite Ascii.eqb_refl.
  - apply orb_false_elim in Hh as [Hd Hh]. now rewrite Hd, (IH Hh).
Qed.

(** An address made of a host without colon or bracket, a colon and a
    port without colon or bracket splits into that host and that port. *)
Lemma SplitHostPort_plain (h p : string) :
  server.hasByte ":" h = false ->
  server.hasByte "[" h = false ->
  server.hasByte "]" h = false ->
  server.hasByte ":" p = false ->
  server.hasByte "[" p = false ->
  server.hasByte "]" p = false ->
  server.SplitHostPort (h +:+ String ":" p) = Some (h, p).
Proof.
  intros Hc Ho Hcl Pc Po Pcl.
  pose proof (cutByte_app ":" h p Hc) as Hcut.
  assert (Hopen : server.hasByte "[" (h +:+ String ":" p) = false)
    by (rewrite hasByte_app, Ho; simpl; exact Po).
  assert (Hclose : server.hasByte "]" (h +:+ String ":" p) = false)
    by (rewrite hasByte_app, Hcl; simpl; exact Pcl).
  destruct (h +:+ String ":" p) as [| c t]; [discriminate Hcut |].
  unfold server.SplitHostPort.
  assert (Hfirst : Ascii.eqb c "[" = false)
    by (simpl in Hopen; now apply orb_false_elim in Hopen as [? _]).
  now rewrite Hfirst, Hcut, Pc, Hopen, Hclose.
Qed.


Lemma SplitHostPort_local (z : Z) :
  server.SplitHostPort ("127.0.0.1:" +:+ Itoa z) = Some ("127.0.0.1", Itoa z).
Proof.
  change ("127.0.0.1:" +:+ Itoa z) with ("127.0.0.1" +:+ String ":" (Itoa z)).
  apply SplitHostPort_plain; try reflexivity; apply hasByte_Itoa; auto.
Qed.

Lemma hostport_local (z : Z) :
  server.hostport ("127.0.0.1:" +:+ Itoa z) = Some ("127.0.0.1", Itoa z).
Proof. exact (SplitHostPort_local z). Qed.

Lemma parsePort_Itoa (z : Z) :
  server.parsePort (Itoa z) =
    if bool_decide (0 <= z <= 65535)%Z then Some z else None.
Proof.
  unfold server.parsePort, Itoa. destruct z as [| p | p]; simpl.
  - reflexivity.
  - rewrite NilEmpty.usu. unfold Z.of_uint.
    rewrite DecimalPos.Unsigned.of_to. simpl.
    repeat case_bool_decide; try reflexivity; lia.
  - destruct (NilEmpty.uint_of_string (NilEmpty.string_of_uint (Pos.to_uint p)));
      simpl; repeat case_bool_decide; try reflexivity; lia.
Qed.

(** Binding the address [Start] builds: an explicit port binds that very
    port, port 0 binds the next ephemeral port, and in both cases the port
    was free and is now taken. *)
Lemma listen_local_ok (z : Z) (n n' : server.Net) (ta : server.TCPAddr) :
  server.listen ("127.0.0.1:" +:+ Itoa z) n = (inl ta, n') ->
  server.IP ta = "127.0.0.1" /\
  (0 < server.Port ta <= 65535)%Z /\
  (server.Port ta ∉ server.busy n) /\
  server.busy n' = server.Port ta :: server.busy n /\
  (z <> 0%Z -> server.Port ta = z).
Proof.
  unfold server.listen. rewrite hostport_local, parsePort_Itoa.
  case_bool_decide as Hz; [| intros; simplify_eq].
  destruct z as [| p | p]; [| | lia].
  - destruct (server.ephemeral n) as [| q rest]; [intros; simplify_eq |].
    destruct (bool_decide (0 < q <= 65535)%Z) eqn:Eq; simpl;
      [| intros; simplify_eq].
    destruct (bool_decide (q ∈ server.busy n)) eqn:Eb; simpl;
      intros; simplify_eq.
    apply bool_decide_eq_true_1 in Eq. apply bool_decide_eq_false_1 in Eb.
    simpl. repeat split; try assumption; try lia.
  - unfold server.bind_port.
    destruct (bool_decide (Z.pos p ∈ server.busy n)) eqn:Eb;
      intros; simplify_eq.
    apply bool_decide_eq_false_1 in Eb.
    simpl. repeat split; try assumption; lia.
Qed.

(** An explicit free port binds. *)
Lemma listen_local_free (q : Z) (n : server.Net) :
  (0 < q <= 65535)%Z ->
  q ∉ server.busy n ->
  server.listen ("127.0.0.1:" +:+ Itoa q) n =
    (inl (server.mkTCPAddr "127.0.0.1" q),
     server.mkNet (q :: server.busy n) (server.ephemeral n)).
Proof.
  intros Hq Hfree. unfold server.listen.
  rewrite hostport_local, parsePort_Itoa.
  rewrite bool_decide_eq_true_2 by lia.
  destruct q as [| p | p]; [lia | | lia].
  unfold server.bind_port. now rewrite bool_decide_eq_false_2.
Qed.

Lemma Close_releases (x : server.Server) (n : server.Net) :
  server.Port (server.Addr x) ∉ server.busy (server.Close x n).
Proof.
  unfold server.Close. simpl. intros Hin.
  apply list_elem_of_filter in Hin as [Hne _]. now apply Hne.
Qed.

(** ** Start, close, restart *)

Lemma Start_ok (w : World) :
  result Start w = Ret None ->
  exists ta n',
    server.listen ("127.0.0.1:" +:+ Itoa (port (this w))) (net w) = (inl ta, n') /\
    exec Start w =
      mkWorld (mkSentinel (Some (server.mkServer ta ["PING"] 0%Z 0%Z))
                          (server.Port ta) (password (this w))
                          (master (this w)) (replicas (this w)))
              (heap w) n' (peers w).
Proof.
  unfold result, exec. rewrite Start_cases. unfold server.NewServer.
  destruct (server.listen _ (net w)) as [[ta | e] n'] eqn:El; simpl;
    intros; simplify_eq.
  exists ta, n'. split; reflexivity.
Qed.

(** C5. After a [Start()] that succeeded, [Close()] and then [Restart()]
    succeed as well, and the listener [Restart()] leaves is bound to the
    port the first listener was bound to; password, master and replica
    list, and what [Master()] and [Replicas()] read, are the same after
    start, close and restart. *)
Theorem C5_restart_binds_same_port (w : World) :
  result Start w = Ret None ->
  result Restart (exec Close (exec Start w)) = Ret None /\
  (exists q : Z,
     listening_port (exec Start w) = Some q /\
     listening_port (exec Close (exec Start w)) = None /\
     listening_port (exec Restart (exec Close (exec Start w))) = Some q) /\
  password (this (exec Restart (exec Close (exec Start w)))) = password (this w) /\
  master (this (exec Restart (exec Close (exec Start w)))) = master (this w) /\
  replicas (this (exec Restart (exec Close (exec Start w)))) = replicas (this w) /\
  seen_master (exec Restart (exec Close (exec Start w))) = seen_master w /\
  seen_replicas (exec Restart (exec Close (exec Start w))) = seen_replicas w.
Proof.
  intros Hok. destruct (Start_ok w Hok) as (ta & n' & El & ->).
  apply listen_local_ok in El as (_ & Hrange & _ & _ & _).
  set (x := server.mkServer ta ["PING"] 0%Z 0%Z).
  assert (Hclose :
    exec Close
      (mkWorld (mkSentinel (Some x) (server.Port ta) (password (this w))
                           (master (this w)) (replicas (this w)))
               (heap w) n' (peers w)) =
    mkWorld (mkSentinel None (server.Port ta) (password (this w))
                        (master (this w)) (replicas (this w)))
            (heap w) (server.Close x n') (peers w)) by reflexivity.
  rewrite Hclose. unfold Restart, result, exec. rewrite Start_cases.
  unfold server.NewServer. simpl.
  rewrite (listen_local_free (server.Port ta) (server.Close x n') Hrange
             (Close_releases x n')).
  simpl. split; [reflexivity |]. split.
  - exists (server.Port ta). repeat split.
  - repeat split.
Qed.

(** C5 on a new controller: the operating system hands out port 49152,
    and the restart binds 49152 again. *)
Lemma C5_witness :
  let w := boot [] [] (server.mkNet [] [49152%Z]) ∅ in
  result Start w = Ret None /\
  listening_port (exec Start w) = Some 49152%Z /\
  listening_port (exec Restart (exec Close (exec Start w))) = Some 49152%Z.
Proof.
  intros w.
  assert (Hok : result Start w = Ret None) by (vm_compute; reflexivity).
  destruct (C5_restart_binds_same_port w Hok) as (_ & (q & H1 & _ & H3) & _).
  split; [exact Hok |].
  assert (Hq : Some q = Some 49152%Z) by (rewrite <- H1; vm_compute; reflexivity).
  rewrite H1, H3. split; exact Hq.
Defined.

(** ** The authenticated flag only goes up *)

Lemma is_authenticated_peers (c : nat) (w w' : World) :
  peers w' = peers w -> is_authenticated c w' = is_authenticated c w.
Proof. unfold is_authenticated. now intros ->. Qed.

Lemma is_authenticated_insert (c c' : nat) (p : server.Peer) (s : Sentinel)
    (h : Heap) (n : server.Net) (ps : gmap nat server.Peer) :
  is_authenticated c (mkWorld s h n (<[c' := p]> ps)) =
    if decide (c' = c)
    then match server.Ctx p with Some x => authenticated x | None => false end
    else is_authenticated c (mkWorld s h n ps).
Proof.
  unfold is_authenticated. simpl. rewrite lookup_insert.
  destruct (decide (c' = c)); reflexivity.
Qed.

Lemma getCtx_keeps_flag (c c' : nat) (w : World) :
  is_authenticated c w = true -> is_authenticated c (exec (getCtx c') w) = true.
Proof.
  destruct w as [s h n ps].
  unfold exec, getCtx, bind, peer, set_peer, ret. simpl.
  destruct (ps !! c') as [[[x|] out]|] eqn:E; simpl; try (intros; assumption).
  rewrite is_authenticated_insert. destruct (decide (c' = c)); subst; simpl.
  - unfold is_authenticated. simpl. now rewrite E.
  - intros; assumption.
Qed.

Lemma setAuthenticated_keeps_flag (c c' : nat) (w : World) :
  is_authenticated c w = true ->
  is_authenticated c (exec (setAuthenticated c') w) = true.
Proof.
  destruct w as [s h n ps].
  unfold exec, setAuthenticated, getCtx, bind, peer, set_peer, ret. simpl.
  destruct (ps !! c') as [[[x|] out]|] eqn:E; simpl; try (intros; assumption).
  - rewrite E. simpl. rewrite is_authenticated_insert.
    destruct (decide (c' = c)); subst; simpl; [reflexivity | intros; assumption].
  - rewrite lookup_insert_eq. simpl. intros Hc.
    rewrite !is_authenticated_insert.
    destruct (decide (c' = c)); subst; simpl; [reflexivity | assumption].
Qed.

Lemma handleAuth_keeps_flag (c c' : nat) (w : World) :
  is_authenticated c w = true ->
  is_authenticated c (exec (handleAuth c') w) = true.
Proof.
  destruct w as [s h n ps].
  unfold exec, handleAuth, locked, bind, load. simpl.
  destruct (decide (password s = EmptyString)); simpl; [intros; assumption |].
  unfold getCtx, bind, peer, set_peer, ret. simpl.
  destruct (ps !! c') as [[[[[|]]|] out]|] eqn:E; simpl;
    try (intros; assumption).
  - rewrite E. simpl. rewrite is_authenticated_insert.
    destruct (decide (c' = c)); subst; simpl; [| intros; assumption].
    unfold is_authenticated. simpl. now rewrite E.
  - rewrite lookup_insert_eq. simpl. rewrite !is_authenticated_insert.
    destruct (decide (c' = c)); subst; simpl; [| intros; assumption].
    unfold is_authenticated. simpl. now rewrite E.
Qed.

Lemma query_keeps_peers {A} (f : server.Server -> A) (w : World) :
  peers (exec (locked (let* p := load Fsrv srv in
                       let* x := deref p in
                       ret (f x))) w) = peers w.
Proof. destruct w as [[[x|] p pw m rs] h n ps]; reflexivity. Qed.

Lemma Start_keeps_peers (w : World) : peers (exec Start w) = peers w.
Proof.
  unfold exec. rewrite Start_cases.
  destruct (server.NewServer _ (net w)) as [[sv | e] n']; reflexivity.
Qed.

Lemma StartAddr_keeps_peers (addr : string) (w : World) :
  peers (exec (StartAddr addr) w) = peers w.
Proof.
  unfold exec. rewrite StartAddr_cases.
  destruct (server.NewServer _ (net w)) as [[sv | e] n']; reflexivity.
Qed.

Lemma AddReplica_spec (spare : nat -> nat -> nat) (r : Miniredis) (w : World) :
  AddReplica spare r w =
    (Ret tt,
     mkWorld (set_replicas (append spare (replicas (this w)) r (heap w)).1 (this w))
             (append spare (replicas (this w)) r (heap w)).2 (net w) (peers w),
     [EvRead Freplicas; EvWrite Freplicas]).
Proof.
  unfold AddReplica, bind, load, on_heap, store. simpl.
  destruct (append spare (replicas (this w)) r (heap w)); reflexivity.
Qed.

(** An operation that leaves the connections alone leaves every flag
    alone; [lem] says that it does. *)
Ltac keeps_peers c w Hc lem :=
  rewrite (is_authenticated_peers c w); [exact Hc | lem].

Lemma step_keeps_flag (spare : nat -> nat -> nat) (c : nat) (w : World) (o : Op) :
  is_authenticated c w = true -> is_authenticated c (step spare w o) = true.
Proof.
  intros Hc. destruct o; simpl;
    first
      [ keeps_peers c w Hc ltac:(reflexivity)
      | keeps_peers c w Hc ltac:(unfold exec; now rewrite AddReplica_spec)
      | keeps_peers c w Hc ltac:(apply Start_keeps_peers)
      | keeps_peers c w Hc ltac:(apply StartAddr_keeps_peers)
      | keeps_peers c w Hc ltac:(apply Close_spec)
      | keeps_peers c w Hc ltac:(apply query_keeps_peers)
      | now apply handleAuth_keeps_flag
      | now apply getCtx_keeps_flag
      | now apply setAuthenticated_keeps_flag ].
Qed.

(** C7. Once a connection's authenticated flag is true it stays true
    through every sequence of operations of the core: construction, the
    topology accessors and mutators, start, restart, close, the address and
    count queries, [RequireAuth] with any password, and the auth check,
    [getCtx] and [setAuthenticated] on this or any other connection. *)
Theorem C7_authenticated_is_monotonic
    (spare : nat -> nat -> nat) (ops : list Op) (c : nat) (w : World) :
  is_authenticated c w = true ->
  is_authenticated c (steps spare ops w) = true.
Proof.
  revert w. induction ops as [| o ops IH]; intros w Hc; simpl.
  - exact Hc.
  - apply IH. now apply step_keeps_flag.
Qed.

(** C7 on a connection that authenticated under one password: the flag
    survives a password change, an auth check and a close. *)
Lemma C7_witness :
  let w := mkWorld (mkSentinel None 0%Z "old" None None) []
                   (server.mkNet [] [])
                   {[ 1%nat := server.mkPeer (Some (mkConnCtx true)) [] ]} in
  is_authenticated 1
    (steps (fun _ _ => 0) [OpRequireAuth "new"; OpHandleAuth 1; OpClose] w) = true.
Proof.
  intros w.
  apply (C7_authenticated_is_monotonic (fun _ _ => 0)
           [OpRequireAuth "new"; OpHandleAuth 1; OpClose] 1 w).
  reflexivity.
Defined.

(** ** Locking discipline *)

(** C4, as the code has it.  The topology accessors and mutators
    [WithMaster], [Master], [AddReplica], [SetReplicas] and [Replicas]
    touch their field without taking the mutex at all, and [Start] reads
    the port before it takes it; [RequireAuth], [Close], the queries and
    the auth check do hold the mutex around every field access. *)
Theorem C4_topology_methods_take_no_lock
    (spare : nat -> nat -> nat) (w : World) (m r : Miniredis) (rs : Slice)
    (pw : string) (c : nat) :
  (log (WithMaster m) w = [EvWrite Fmaster] /\
   log Master w = [EvRead Fmaster] /\
   log (AddReplica spare r) w = [EvRead Freplicas; EvWrite Freplicas] /\
   log (SetReplicas rs) w = [EvWrite Freplicas] /\
   log Replicas w = [EvRead Freplicas]) /\
  (guarded (log (WithMaster m) w) = false /\
   guarded (log Master w) = false /\
   guarded (log (AddReplica spare r) w) = false /\
   guarded (log (SetReplicas rs) w) = false /\
   guarded (log Replicas w) = false /\
   guarded (log Start w) = false) /\
  (guarded (log (RequireAuth pw) w) = true /\
   guarded (log Close w) = true /\
   guarded (log Addr w) = true /\
   guarded (log (handleAuth c) w) = true).
Proof.
  assert (Ha : log (AddReplica spare r) w = [EvRead Freplicas; EvWrite Freplicas])
    by (unfold log; now rewrite AddReplica_spec).
  split; [| split].
  - repeat split. exact Ha.
  - repeat split.
    + now rewrite Ha.
    + unfold log. rewrite Start_cases.
      destruct (server.NewServer _ (net w)) as [[sv | e] n']; reflexivity.
  - repeat split.
    + destruct w as [[[x|] p pw' m' rs'] h n ps]; reflexivity.
    + destruct w as [[[x|] p pw' m' rs'] h n ps]; reflexivity.
    + destruct w as [s h n ps].
      unfold log, handleAuth, locked, bind, load. simpl.
      destruct (decide (password s = EmptyString)); simpl; [reflexivity |].
      unfold getCtx, bind, peer, set_peer, ret. simpl.
      destruct (ps !! c) as [[[[[|]]|] out]|] eqn:E; simpl; rewrite ?E; simpl;
        rewrite ?lookup_insert_eq; reflexivity.
Qed.

(** ** Two controllers from the same mutators *)

Lemma slice_ok_lt (h : Heap) (y : slice) :
  slice_ok h (Some y) -> sl_arr y < length h.
Proof. intros (_ & a & Ha & _). now apply lookup_lt_Some in Ha. Qed.

(** A heap change that leaves the arrays of [u] alone leaves [u] alone. *)
Lemma slice_same_array (h h' : Heap) (u : Slice) :
  (forall y, u = Some y -> h' !! sl_arr y = h !! sl_arr y) ->
  (slice_ok h u -> slice_ok h' u) /\ contents h' u = contents h u.
Proof.
  destruct u as [y |]; [| now split].
  intros Hsame. specialize (Hsame y eq_refl).
  unfold slice_ok, contents. rewrite Hsame. now split.
Qed.

Lemma slice_ok_extend (h : Heap) (a : list Miniredis) (u : Slice) :
  slice_ok h u ->
  slice_ok (h ++ [a]) u /\ contents (h ++ [a]) u = contents h u.
Proof.
  intros Hok.
  assert (Hsame : forall y, u = Some y -> (h ++ [a]) !! sl_arr y = h !! sl_arr y).
  { intros y ->. apply lookup_app_l. now apply slice_ok_lt. }
  destruct (slice_same_array h (h ++ [a]) u Hsame) as [H1 H2].
  split; [now apply H1 | exact H2].
Qed.

Lemma contents_length (h : Heap) (x : slice) :
  slice_ok h (Some x) -> length (contents h (Some x)) = sl_len x.
Proof.
  intros (Hle & a & Ha & Hcap). unfold contents. rewrite Ha. simpl.
  rewrite length_take, length_drop. lia.
Qed.

Section AppendFacts.

Variable spare : nat -> nat -> nat.

Lemma append_ok (v : Slice) (r : Miniredis) (h : Heap) :
  slice_ok h v ->
  slice_ok (append spare v r h).2 (append spare v r h).1.
Proof.
  intros Hok. destruct v as [x |]; simpl.
  - destruct (decide (sl_len x < sl_cap x)) as [Hlt | Hge]; simpl.
    + destruct Hok as (Hle & a & Ha & Hcap). split; [lia |].
      exists (<[sl_off x + sl_len x := r]> a). split.
      * etrans; [apply list_lookup_alter_eq |]. now rewrite Ha.
      * now rewrite length_insert.
    + pose proof (contents_length h x Hok) as Hlen.
      split; [lia |]. eexists. split; [apply lookup_fresh |].
      rewrite length_app. simpl in *. rewrite length_replicate. lia.
  - split; [lia |]. eexists. split; [apply lookup_fresh |].
    simpl. rewrite length_replicate. lia.
Qed.

(** [append] on [v] is invisible through a slice [u] that is apart from
    [v], and leaves the two apart. *)
Lemma append_frame (v u : Slice) (r : Miniredis) (h : Heap) :
  slice_ok h u ->
  apart v u ->
  slice_ok (append spare v r h).2 u /\
  contents (append spare v r h).2 u = contents h u /\
  apart (append spare v r h).1 u.
Proof.
  intros Hu Hap. destruct v as [x |]; simpl.
  - destruct (decide (sl_len x < sl_cap x)) as [Hlt | Hge]; simpl.
    + assert (Hsame : forall y, u = Some y ->
                alter (fun a => <[sl_off x + sl_len x := r]> a) (sl_arr x) h
                  !! sl_arr y = h !! sl_arr y).
      { intros y ->. apply list_lookup_alter_ne.
        destruct Hap as [Hne | [Hfull _]]; [exact Hne | lia]. }
      destruct (slice_same_array _ _ u Hsame) as [H1 H2].
      split; [now apply H1 |]. split; [exact H2 |].
      destruct u as [y |]; [| exact I]. simpl. left.
      destruct Hap as [Hne | [Hfull _]]; [exact Hne | lia].
    + destruct (slice_ok_extend h
                  (contents h (Some x) ++
                   r :: replicate (spare (sl_cap x) (S (sl_len x))) None)
                  u Hu) as [H1 H2].
      split; [exact H1 |]. split; [exact H2 |].
      destruct u as [y |]; [| exact I]. simpl. left.
      apply slice_ok_lt in Hu. lia.
  - destruct (slice_ok_extend h (r :: replicate (spare 0 1) None) u Hu)
      as [H1 H2].
    split; [exact H1 |]. split; [exact H2 |].
    destruct u as [y |]; [| exact I]. simpl. left.
    apply slice_ok_lt in Hu. lia.
Qed.

Lemma apart_sym (v u : Slice) : apart v u -> apart u v.
Proof.
  destruct v as [x |], u as [y |]; simpl; try tauto.
  intros [Hne | [H1 H2]]; [left; congruence | right; tauto].
Qed.

Lemma swap_swap (d : Duo) : swap (swap d) = d.
Proof. now destruct d as [[s h n ps] o]. Qed.

Lemma duo_ok_swap (d : Duo) : duo_ok d -> duo_ok (swap d).
Proof.
  intros (H1 & H2 & H3). unfold duo_ok, swap. simpl.
  split; [exact H2 |]. split; [exact H1 |]. now apply apart_sym.
Qed.

(** What [AddReplica] on the first controller does to the pair. *)
Lemma on_first_AddReplica (r : Miniredis) (d : Duo) :
  duo_ok d ->
  duo_ok (on_first (AddReplica spare r) d) /\
  seen_replicas (world (swap (on_first (AddReplica spare r) d))) =
    seen_replicas (world (swap d)) /\
  seen_master (world (swap (on_first (AddReplica spare r) d))) =
    seen_master (world (swap d)) /\
  seen_master (world (on_first (AddReplica spare r) d)) = seen_master (world d).
Proof.
  intros (H1 & H2 & H3).
  unfold on_first, exec. rewrite AddReplica_spec.
  destruct (append_frame _ _ r _ H2 H3) as (F1 & F2 & F3).
  pose proof (append_ok _ r _ H1) as Hok.
  unfold duo_ok, seen_replicas, seen_master, swap. simpl.
  repeat split; assumption.
Qed.

Lemma on_second_AddReplica (r : Miniredis) (d : Duo) :
  duo_ok d ->
  duo_ok (on_second (AddReplica spare r) d) /\
  seen_replicas (world (on_second (AddReplica spare r) d)) =
    seen_replicas (world d) /\
  seen_master (world (on_second (AddReplica spare r) d)) =
    seen_master (world d).
Proof.
  intros Hd. unfold on_second.
  destruct (on_first_AddReplica r (swap d) (duo_ok_swap d Hd))
    as (Hok & Hr & Hm & _).
  rewrite swap_swap in Hr, Hm.
  split; [now apply duo_ok_swap |]. split; assumption.
Qed.

Lemma add_replicas_ok (calls : list (Side * Miniredis)) (d : Duo) :
  duo_ok d -> duo_ok (add_replicas spare calls d).
Proof.
  revert d. induction calls as [| [[|] r] calls IH]; intros d Hd; simpl.
  - exact Hd.
  - apply IH. now apply on_first_AddReplica.
  - apply IH. now apply on_second_AddReplica.
Qed.

End AppendFacts.

Lemma construct_two_ok (opts : list options.Option) (h : Heap)
    (n : server.Net) (ps : gmap nat server.Peer) :
  slice_ok h (options.replicas (options.GetOpts opts)) ->
  slice_full (options.replicas (options.GetOpts opts)) ->
  duo_ok (construct_two opts h n ps).
Proof.
  intros Hok Hfull. unfold construct_two.
  destruct (options.replicas (options.GetOpts opts)) as [s |] eqn:Er.
  - pose proof (NewSentinel_explicit opts h s Er) as Ha.
    destruct (NewSentinel opts h) as [a h1] eqn:E1. simpl in Ha.
    assert (Hh1 : slice_ok h1 (Some s)).
    { unfold NewSentinel in E1. rewrite Er in E1.
      destruct (options.master (options.GetOpts opts)); simpl in E1;
        simplify_eq; [now apply slice_ok_extend | exact Hok]. }
    pose proof (NewSentinel_explicit opts h1 s Er) as Hb.
    destruct (NewSentinel opts h1) as [b h2] eqn:E2. simpl in Hb.
    assert (Hh2 : slice_ok h2 (Some s)).
    { unfold NewSentinel in E2. rewrite Er in E2.
      destruct (options.master (options.GetOpts opts)); simpl in E2;
        simplify_eq; [now apply slice_ok_extend | exact Hh1]. }
    unfold duo_ok. simpl. rewrite Ha, Hb.
    split; [exact Hh2 |]. split; [exact Hh2 |]. right. now split.
  - destruct (options.master (options.GetOpts opts)) as [m |] eqn:Em.
    + rewrite (NewSentinel_default opts h m Em Er).
      rewrite (NewSentinel_default opts _ m Em Er).
      unfold duo_ok. simpl. rewrite length_app. simpl.
      split; [| split].
      * split; [lia |]. exists [Some m]. split; [| simpl; lia].
        rewrite lookup_app_l by (rewrite length_app; simpl; lia).
        apply lookup_fresh.
      * split; [lia |]. exists [Some m]. split; [| simpl; lia].
        replace (length h + 1) with (length (h ++ [[Some m]]))
          by (rewrite length_app; simpl; lia).
        apply lookup_fresh.
      * left. lia.
    + rewrite (NewSentinel_bare opts h Em Er).
      rewrite (NewSentinel_bare opts h Em Er).
      unfold duo_ok. simpl. tauto.
Qed.

(** C9, amended.  Option resolution with no mutator gives the master and
    the replica list of the canonical defaults, both nil, and each further
    mutator is applied to what the earlier ones resolved.  When the
    resolved options carry no replica list, or one
    without spare capacity, two controllers made from the same mutators
    stay independent through any sequence of [AddReplica] calls on either:
    one more [AddReplica] on either controller leaves what [Replicas()] and
    [Master()] read on the other one unchanged. *)
Theorem C9_independent_without_spare_capacity
    (spare : nat -> nat -> nat) (opts : list options.Option)
    (o : options.Option) (h : Heap) (n : server.Net)
    (ps : gmap nat server.Peer) (calls : list (Side * Miniredis))
    (r : Miniredis) :
  slice_ok h (options.replicas (options.GetOpts opts)) ->
  slice_full (options.replicas (options.GetOpts opts)) ->
  (options.master (options.GetOpts []) = options.master options.defaultOptions /\
   options.replicas (options.GetOpts []) = options.replicas options.defaultOptions /\
   options.GetOpts (opts ++ [o]) = o (options.GetOpts opts)) /\
  (seen_replicas
     (world (add_replica spare
               (add_replicas spare calls (construct_two opts h n ps))
               (Second, r))) =
   seen_replicas (world (add_replicas spare calls (construct_two opts h n ps))) /\
   seen_master
     (world (add_replica spare
               (add_replicas spare calls (construct_two opts h n ps))
               (Second, r))) =
   seen_master (world (add_replicas spare calls (construct_two opts h n ps)))) /\
  (seen_replicas
     (world (swap (add_replica spare
                     (add_replicas spare calls (construct_two opts h n ps))
                     (First, r)))) =
   seen_replicas
     (world (swap (add_replicas spare calls (construct_two opts h n ps)))) /\
   seen_master
     (world (swap (add_replica spare
                     (add_replicas spare calls (construct_two opts h n ps))
                     (First, r)))) =
   seen_master
     (world (swap (add_replicas spare calls (construct_two opts h n ps))))).
Proof.
  intros Hok Hfull.
  pose proof (add_replicas_ok spare calls _
                (construct_two_ok opts h n ps Hok Hfull)) as Hd.
  split; [split; [| split]; [apply GetOpts_nil_topology .. | apply GetOpts_snoc] |].
  split.
  - destruct (on_second_AddReplica spare r _ Hd) as (_ & Hr & Hm).
    split; assumption.
  - destruct (on_first_AddReplica spare r _ Hd) as (_ & Hr & Hm & _).
    split; assumption.
Qed.

(** C9 with a one-element replica list without spare capacity: after the
    first controller has added a replica, one more on the second does not
    show through the first. *)
Lemma C9_witness :
  let opts := [options.WithReplicas (Some (mkSlice 0 0 1 1))] in
  let h := [[Some 5]] in
  let d := add_replicas (fun old _ => old) [(First, Some 1)]
             (construct_two opts h (server.mkNet [] []) ∅) in
  slice_ok h (options.replicas (options.GetOpts opts)) /\
  slice_full (options.replicas (options.GetOpts opts)) /\
  seen_replicas (world d) = [Some 5; Some 1] /\
  seen_replicas (world (add_replica (fun old _ => old) d (Second, Some 2))) =
    seen_replicas (world d).
Proof.
  intros opts h d.
  assert (Hok : slice_ok h (options.replicas (options.GetOpts opts))).
  { simpl. split; [lia |]. exists [Some 5]. split; [reflexivity | simpl; lia]. }
  assert (Hfull : slice_full (options.replicas (options.GetOpts opts)))
    by reflexivity.
  split; [exact Hok |]. split; [exact Hfull |].
  split; [vm_compute; reflexivity |].
  destruct (C9_independent_without_spare_capacity (fun old _ => old) opts id h
              (server.mkNet [] []) ∅ [(First, Some 1)] (Some 2) Hok Hfull)
    as (_ & (Hsame & _) & _).
  exact Hsame.
Defined.

(** C9 as stated fails.  Both controllers are made from the one mutator
    [WithReplicas(rs)], where [rs] is empty with room for one element.
    The first controller adds node 1 and reads [[1]]; then the second adds
    node 2, into the same slot of the same array, and the first reads
    [[2]].  Nor does resolution start from a copy that equals the
    canonical defaults: without mutators it gives the empty master name,
    not "mymaster". *)
Lemma C9_counterexample :
  let opts := [options.WithReplicas (Some (mkSlice 0 0 0 1))] in
  let d := add_replicas (fun old _ => old) [(First, Some 1)]
             (construct_two opts [[None]] (server.mkNet [] []) ∅) in
  seen_replicas (world d) = [Some 1] /\
  seen_replicas (world (add_replica (fun old _ => old) d (Second, Some 2))) =
    [Some 2] /\
  seen_replicas (world (add_replica (fun old _ => old) d (Second, Some 2))) <>
    seen_replicas (world d) /\
  options.GetOpts [] <> options.defaultOptions.
Proof.
  intros opts d. split; [vm_compute; reflexivity |].
  split; [vm_compute; reflexivity |].
  split; [vm_compute; discriminate | discriminate].
Defined.

(** * Further properties of the package *)

(** ** The replica list under [AddReplica] *)

Section AppendContents.

Variable spare : nat -> nat -> nat.

Lemma append_contents (v : Slice) (r : Miniredis) (h : Heap) :
  slice_ok h v ->
  contents (append spare v r h).2 (append spare v r h).1 = contents h v ++ [r].
Proof.
  intros Hok. destruct v as [x |]; simpl.
  - destruct (decide (sl_len x < sl_cap x)) as [Hlt | Hge]; simpl.
    + destruct Hok as (Hle & a & Ha & Hcap).
      rewrite list_lookup_alter_eq, Ha. simpl.
      rewrite drop_insert_ge by lia.
      replace (sl_off x + sl_len x - sl_off x) with (sl_len x) by lia.
      rewrite (take_S_r _ _ r).
      * now rewrite take_insert_ge by lia.
      * apply list_lookup_insert_eq. rewrite length_drop. lia.
    + pose proof (contents_length h x Hok) as Hlen.
      rewrite lookup_fresh. simpl in *.
      rewrite drop_0.
      set (l := take (sl_len x) (drop (sl_off x) (default [] (h !! sl_arr x)))) in *.
      change (r :: replicate (spare (sl_cap x) (S (sl_len x))) None)
        with ([r] ++ replicate (spare (sl_cap x) (S (sl_len x))) None).
      rewrite app_assoc. apply take_app_length'.
      rewrite length_app, Hlen. simpl. lia.
  - now rewrite lookup_fresh.
Qed.

(** A slice taken from what the controller showed earlier reads the same
    after [append]. *)
Lemma append_within (u v : Slice) (r : Miniredis) (h : Heap) :
  slice_ok h v ->
  slice_ok h u ->
  within u v ->
  slice_ok (append spare v r h).2 u /\
  contents (append spare v r h).2 u = contents h u /\
  within u (append spare v r h).1.
Proof.
  intros Hv Hu Hin. destruct u as [y |]; [| now repeat split].
  destruct v as [x |]; simpl.
  - destruct (decide (sl_len x < sl_cap x)) as [Hlt | Hge]; simpl.
    + destruct (decide (sl_arr y = sl_arr x)) as [Heq | Hne].
      * destruct Hin as [Hne | [Ho Hl]]; [contradiction |].
        destruct Hu as (Hle & a & Ha & Hcap).
        split; [| split].
        -- split; [exact Hle |].
           exists (<[sl_off x + sl_len x := r]> a). split.
           ++ rewrite Heq, list_lookup_alter_eq, <- Heq, Ha. reflexivity.
           ++ now rewrite length_insert.
        -- rewrite Heq, list_lookup_alter_eq, <- Heq, Ha. simpl.
           rewrite drop_insert_ge by lia.
           now rewrite take_insert_ge by lia.
        -- right. lia.
      * assert (Hsame : forall z, Some y = Some z ->
                  alter (fun a => <[sl_off x + sl_len x := r]> a) (sl_arr x) h
                    !! sl_arr z = h !! sl_arr z).
        { intros z [= <-]. apply list_lookup_alter_ne. congruence. }
        destruct (slice_same_array _ _ (Some y) Hsame) as [H1 H2].
        split; [now apply H1 |]. split; [exact H2 |]. now left.
    + destruct (slice_ok_extend h
                  (contents h (Some x) ++
                   r :: replicate (spare (sl_cap x) (S (sl_len x))) None)
                  (Some y) Hu) as [H1 H2].
      split; [exact H1 |]. split; [exact H2 |].
      left. apply slice_ok_lt in Hu. simpl. lia.
  - destruct (slice_ok_extend h (r :: replicate (spare 0 1) None) (Some y) Hu)
      as [H1 H2].
    split; [exact H1 |]. split; [exact H2 |].
    left. apply slice_ok_lt in Hu. simpl. lia.
Qed.

Lemma within_refl (h : Heap) (v : Slice) : within v v.
Proof. destruct v as [x |]; simpl; [right; lia | exact I]. Qed.

Lemma AddReplica_steps (rs : list Miniredis) (u : Slice) (w : World) :
  slice_ok (heap w) (replicas (this w)) ->
  slice_ok (heap w) u ->
  within u (replicas (this w)) ->
  let w' := steps spare (map OpAddReplica rs) w in
  seen_replicas w' = seen_replicas w ++ rs /\
  contents (heap w') u = contents (heap w) u /\
  slice_ok (heap w') (replicas (this w')) /\
  this w' = set_replicas (replicas (this w')) (this w) /\
  net w' = net w /\ peers w' = peers w.
Proof.
  revert w. induction rs as [| r rs IH]; intros w Hv Hu Hin; simpl.
  - rewrite app_nil_r. repeat split; try assumption. now destruct w as [[]].
  - set (w1 := mkWorld
                 (set_replicas (append spare (replicas (this w)) r (heap w)).1 (this w))
                 (append spare (replicas (this w)) r (heap w)).2 (net w) (peers w)).
    assert (E : exec (AddReplica spare r) w = w1)
      by (unfold exec; now rewrite AddReplica_spec).
    rewrite E.
    destruct (append_within u _ r _ Hv Hu Hin) as (Hu' & Hc & Hin').
    pose proof (append_ok spare _ r _ Hv) as Hv'.
    pose proof (append_contents _ r _ Hv) as Happ.
    destruct (IH w1 Hv' Hu' Hin') as (I1 & I2 & I3 & I4 & I5 & I6).
    repeat split; try assumption.
    + rewrite I1. unfold seen_replicas, result, Replicas, load. simpl.
      rewrite Happ. now rewrite <- app_assoc.
    + now rewrite I2.
Qed.

End AppendContents.

(** X1. [AddReplica] appends: after adding the nodes [rs] one by one,
    [Replicas()] reads what it read before followed by [rs], in order and
    with duplicates and nil pointers kept; the replica list stays
    well-formed, and nothing else of the controller, the listener table or
    the connections changes. *)
Theorem X1_AddReplica_appends_in_order
    (spare : nat -> nat -> nat) (rs : list Miniredis) (w : World) :
  slice_ok (heap w) (replicas (this w)) ->
  seen_replicas (steps spare (map OpAddReplica rs) w) = seen_replicas w ++ rs /\
  slice_ok (heap (steps spare (map OpAddReplica rs) w))
           (replicas (this (steps spare (map OpAddReplica rs) w))) /\
  seen_master (steps spare (map OpAddReplica rs) w) = seen_master w /\
  srv (this (steps spare (map OpAddReplica rs) w)) = srv (this w) /\
  port (this (steps spare (map OpAddReplica rs) w)) = port (this w) /\
  password (this (steps spare (map OpAddReplica rs) w)) = password (this w) /\
  net (steps spare (map OpAddReplica rs) w) = net w /\
  peers (steps spare (map OpAddReplica rs) w) = peers w.
Proof.
  intros Hv.
  destruct (AddReplica_steps spare rs None w Hv I I)
    as (H1 & _ & H3 & H4 & H5 & H6).
  repeat split; try assumption.
  - unfold seen_master, result, Master, load. simpl. now rewrite H4.
  - now rewrite H4.
  - now rewrite H4.
  - now rewrite H4.
Qed.

(** X1 on a controller made with a master only: the default list, then
    the added nodes, a duplicate included. *)
Lemma X1_witness :
  let w := boot [options.WithMaster (Some 7)] [] (server.mkNet [] []) ∅ in
  seen_replicas
    (steps (fun old _ => old) (map OpAddReplica [Some 8; Some 8; None]) w) =
  [Some 7; Some 8; Some 8; None].
Proof.
  intros w.
  assert (Hok : slice_ok (heap w) (replicas (this w))).
  { simpl. split; [lia |]. exists [Some 7]. split; [reflexivity | simpl; lia]. }
  destruct (X1_AddReplica_appends_in_order (fun old _ => old)
              [Some 8; Some 8; None] w Hok) as (H & _).
  rewrite H. vm_compute. reflexivity.
Defined.

(** X2. The slice a caller got from [Replicas()] keeps reading the same
    elements however many replicas are added afterwards: [AddReplica]
    writes behind the elements shown so far or moves to a new array, never
    over them. *)
Theorem X2_Replicas_snapshot_is_stable
    (spare : nat -> nat -> nat) (rs : list Miniredis) (w : World) (snap : Slice) :
  slice_ok (heap w) (replicas (this w)) ->
  result Replicas w = Ret snap ->
  contents (heap (steps spare (map OpAddReplica rs) w)) snap =
    contents (heap w) snap.
Proof.
  intros Hv Hsnap.
  assert (snap = replicas (this w)) as -> by (unfold result in Hsnap; simpl in Hsnap; congruence).
  destruct (AddReplica_steps spare rs (replicas (this w)) w Hv Hv
              (within_refl (heap w) _)) as (_ & H2 & _).
  exact H2.
Qed.

(** X2 on a list with room for one more element: the snapshot still reads
    the single element after two additions. *)
Lemma X2_witness :
  let w := mkWorld (mkSentinel None 0%Z EmptyString None (Some (mkSlice 0 0 1 2)))
                   [[Some 5; None]] (server.mkNet [] []) ∅ in
  contents
    (heap (steps (fun old _ => old) (map OpAddReplica [Some 1; Some 2]) w))
    (Some (mkSlice 0 0 1 2)) = [Some 5].
Proof.
  intros w.
  assert (Hok : slice_ok (heap w) (replicas (this w))).
  { simpl. split; [lia |]. exists [Some 5; None].
    split; [reflexivity | simpl; lia]. }
  rewrite (X2_Replicas_snapshot_is_stable (fun old _ => old)
             [Some 1; Some 2] w (Some (mkSlice 0 0 1 2)) Hok eq_refl).
  reflexivity.
Defined.

(** ** Option resolution and construction *)

Lemma GetOpts_fields_snoc (opts : list options.Option) (x : Mutator) :
  options.masterName (options.GetOpts (opts ++ [mutator x])) =
    default (options.masterName (options.GetOpts opts)) (name_of x) /\
  options.master (options.GetOpts (opts ++ [mutator x])) =
    default (options.master (options.GetOpts opts)) (master_of x) /\
  options.replicas (options.GetOpts (opts ++ [mutator x])) =
    default (options.replicas (options.GetOpts opts)) (replicas_of x).
Proof. rewrite GetOpts_snoc. destruct x; repeat split. Qed.

Lemma last_omap_snoc {A} (f : Mutator -> option A) (ms : list Mutator)
    (x : Mutator) (d : A) :
  default d (last (omap f (ms ++ [x]))) =
    default (default d (last (omap f ms))) (f x).
Proof.
  rewrite omap_app. simpl. destruct (f x) as [a |]; simpl.
  - now rewrite last_snoc.
  - now rewrite app_nil_r.
Qed.

Lemma GetOpts_last (ms : list Mutator) :
  options.masterName (options.GetOpts (map mutator ms)) =
    default EmptyString (last (omap name_of ms)) /\
  options.master (options.GetOpts (map mutator ms)) =
    default None (last (omap master_of ms)) /\
  options.replicas (options.GetOpts (map mutator ms)) =
    default None (last (omap replicas_of ms)).
Proof.
  induction ms as [| x ms IH] using rev_ind.
  - repeat split.
  - destruct IH as (I1 & I2 & I3).
    rewrite map_app. simpl.
    destruct (GetOpts_fields_snoc (map mutator ms) x) as (-> & -> & ->).
    rewrite !last_omap_snoc, I1, I2, I3. repeat split.
Qed.

(** X3. Resolving a list of the package's mutators gives, field by field,
    the value of the last mutator for that field, and the zero value (the
    empty master name, the nil master, the nil replica list) for a field
    no mutator names: the master name "mymaster" of [defaultOptions] does
    not survive the copy [GetOpts] starts from, so without a
    [WithMasterName] the resolved master name is empty. *)
Theorem X3_GetOpts_last_mutator_wins (ms : list Mutator) :
  options.masterName (options.GetOpts (map mutator ms)) =
    default EmptyString (last (omap name_of ms)) /\
  options.master (options.GetOpts (map mutator ms)) =
    default None (last (omap master_of ms)) /\
  options.replicas (options.GetOpts (map mutator ms)) =
    default None (last (omap replicas_of ms)) /\
  options.masterName (options.GetOpts []) = EmptyString /\
  options.masterName (options.GetOpts []) <>
    options.masterName options.defaultOptions.
Proof.
  assert (Hlast :
    options.masterName (options.GetOpts (map mutator ms)) =
      default EmptyString (last (omap name_of ms)) /\
    options.master (options.GetOpts (map mutator ms)) =
      default None (last (omap master_of ms)) /\
    options.replicas (options.GetOpts (map mutator ms)) =
      default None (last (omap replicas_of ms))).
  { induction ms as [| x ms IH] using rev_ind.
    - repeat split.
    - destruct IH as (I1 & I2 & I3).
      rewrite map_app. simpl.
      destruct (GetOpts_fields_snoc (map mutator ms) x) as (-> & -> & ->).
      rewrite !last_omap_snoc, I1, I2, I3. repeat split. }
  destruct Hlast as (H1 & H2 & H3).
  repeat split; try assumption. discriminate.
Qed.

Lemma omap_without_names {A} (f : Mutator -> option A) (ms : list Mutator) :
  (forall name, f (MName name) = None) ->
  omap f (filter (fun x => is_name x = false) ms) = omap f ms.
Proof.
  intros Hf. induction ms as [| x ms IH]; [reflexivity |].
  rewrite filter_cons.
  destruct (decide (is_name x = false)) as [Hx | Hx].
  - exact (f_equal (fun l => match f x with Some y => y :: l | None => l end) IH).
  - destruct x as [name | m | rs]; simpl in Hx; try congruence.
    etrans; [exact IH |].
    change (omap f ms =
            match f (MName name) with
            | Some y => y :: omap f ms
            | None => omap f ms
            end).
    now rewrite Hf.
Qed.

Lemma NewSentinel_by_topology (opts opts' : list options.Option) (h : Heap) :
  options.master (options.GetOpts opts) = options.master (options.GetOpts opts') ->
  options.replicas (options.GetOpts opts) = options.replicas (options.GetOpts opts') ->
  NewSentinel opts h = NewSentinel opts' h.
Proof. intros Hm Hr. unfold NewSentinel. now rewrite Hm, Hr. Qed.

(** X4. The master name is resolved but never reaches the controller:
    dropping every [WithMasterName] from a list of the package's mutators
    constructs the same controller on the same heap. *)
Theorem X4_NewSentinel_ignores_master_name (ms : list Mutator) (h : Heap) :
  NewSentinel (map mutator ms) h =
    NewSentinel (map mutator (filter (fun x => is_name x = false) ms)) h.
Proof.
  destruct (GetOpts_last ms) as (_ & Hm & Hr).
  destruct (GetOpts_last (filter (fun x => is_name x = false) ms))
    as (_ & Hm' & Hr').
  apply NewSentinel_by_topology.
  - rewrite Hm, Hm'. now rewrite omap_without_names.
  - rewrite Hr, Hr'. now rewrite omap_without_names.
Qed.

Lemma NewSentinel_heap (opts : list options.Option) (h : Heap) :
  exists ext, (NewSentinel opts h).2 = h ++ ext /\ length ext <= 1.
Proof.
  unfold NewSentinel.
  destruct (options.master (options.GetOpts opts));
    destruct (options.replicas (options.GetOpts opts)); simpl.
  - exists [[Some n]]. split; [reflexivity | simpl; lia].
  - exists [[Some n]]. split; [reflexivity | simpl; lia].
  - exists []. split; [now rewrite app_nil_r | simpl; lia].
  - exists []. split; [now rewrite app_nil_r | simpl; lia].
Qed.

Lemma slice_ok_app (h ext : Heap) (u : Slice) :
  slice_ok h u -> slice_ok (h ++ ext) u /\ contents (h ++ ext) u = contents h u.
Proof.
  intros Hok.
  assert (Hsame : forall y, u = Some y -> (h ++ ext) !! sl_arr y = h !! sl_arr y).
  { intros y ->. apply lookup_app_l. now apply slice_ok_lt. }
  destruct (slice_same_array h (h ++ ext) u Hsame) as [H1 H2].
  split; [now apply H1 | exact H2].
Qed.

Lemma NewSentinel_ok (opts : list options.Option) (h : Heap) :
  slice_ok h (options.replicas (options.GetOpts opts)) ->
  slice_ok (NewSentinel opts h).2 (replicas (NewSentinel opts h).1).
Proof.
  intros Hok.
  destruct (options.replicas (options.GetOpts opts)) as [s |] eqn:Er.
  - rewrite (NewSentinel_explicit opts h s Er).
    destruct (NewSentinel_heap opts h) as (ext & -> & _).
    now apply slice_ok_app.
  - destruct (options.master (options.GetOpts opts)) as [a |] eqn:Em.
    + rewrite (NewSentinel_default opts h a Em Er). simpl.
      split; [lia |]. exists [Some a]. split; [apply lookup_fresh | simpl; lia].
    + rewrite (NewSentinel_bare opts h Em Er). exact I.
Qed.

(** X5. A new controller holds no listener, port 0 and the empty
    password, so the auth check lets every connection through; its master
    is the resolved one.  Construction never writes into an array that
    exists already: the heap only grows, by at most one array, and every
    slice that was well-formed reads as before.  The controller's replica
    list is well-formed when the resolved one is. *)
Theorem X5_NewSentinel_starts_clean
    (opts : list options.Option) (h : Heap) (n : server.Net)
    (ps : gmap nat server.Peer) (c : nat) (u : Slice) :
  slice_ok h (options.replicas (options.GetOpts opts)) ->
  slice_ok h u ->
  srv (this (boot opts h n ps)) = None /\
  port (this (boot opts h n ps)) = 0%Z /\
  password (this (boot opts h n ps)) = EmptyString /\
  seen_master (boot opts h n ps) = options.master (options.GetOpts opts) /\
  result (handleAuth c) (boot opts h n ps) = Ret true /\
  (exists ext, heap (boot opts h n ps) = h ++ ext /\ length ext <= 1) /\
  contents (heap (boot opts h n ps)) u = contents h u /\
  slice_ok (heap (boot opts h n ps)) (replicas (this (boot opts h n ps))).
Proof.
  intros Hok Hu.
  assert (Hz : srv (NewSentinel opts h).1 = None /\
               port (NewSentinel opts h).1 = 0%Z /\
               password (NewSentinel opts h).1 = EmptyString).
  { unfold NewSentinel.
    destruct (options.master (options.GetOpts opts));
      destruct (options.replicas (options.GetOpts opts)); repeat split. }
  destruct Hz as (Hs & Hp & Hpw).
  unfold boot. simpl. repeat split; try assumption.
  - apply NewSentinel_master.
  - unfold result, handleAuth, locked, bind, load. simpl. now rewrite Hpw.
  - apply NewSentinel_heap.
  - destruct (NewSentinel_heap opts h) as (ext & -> & _).
    now apply slice_ok_app.
  - now apply NewSentinel_ok.
Qed.

(** X5 with a master and an explicit one-element replica list. *)
Lemma X5_witness :
  let opts := [options.WithMaster (Some 7);
               options.WithReplicas (Some (mkSlice 0 0 1 1))] in
  let w := boot opts [[Some 5]] (server.mkNet [] []) ∅ in
  seen_master w = Some 7 /\ seen_replicas w = [Some 5] /\
  result (handleAuth 3) w = Ret true.
Proof.
  intros opts w.
  assert (Hok : slice_ok [[Some 5]] (options.replicas (options.GetOpts opts))).
  { simpl. split; [lia |]. exists [Some 5]. split; [reflexivity | simpl; lia]. }
  destruct (X5_NewSentinel_starts_clean opts [[Some 5]] (server.mkNet [] []) ∅
              3 (Some (mkSlice 0 0 1 1)) Hok Hok)
    as (_ & _ & _ & Hm & Ha & _ & _ & _).
  split; [exact Hm |]. split; [vm_compute; reflexivity | exact Ha].
Defined.

(** ** Run *)

(** X6. [Run()] makes a controller without options and starts it on the
    next ephemeral port the host hands out.  When that port is a valid
    free port the controller comes back started on 127.0.0.1 at that
    port, with PING registered and no password, master or replicas;
    otherwise the error comes back together with the controller, which is
    not started, and the listener table is untouched. *)
Theorem X6_Run_starts_on_ephemeral_port
    (h : Heap) (n : server.Net) (ps : gmap nat server.Peer) :
  Run h n ps =
    match server.ephemeral n with
    | q :: rest =>
        if bool_decide (0 < q <= 65535)%Z && negb (bool_decide (q ∈ server.busy n))
        then (Ret None,
              mkWorld
                (mkSentinel
                   (Some (server.mkServer (server.mkTCPAddr "127.0.0.1" q)
                                          ["PING"] 0%Z 0%Z))
                   q EmptyString None None)
                h (server.mkNet (q :: server.busy n) rest) ps,
              [EvRead Fport; EvLock; EvWrite Fsrv; EvWrite Fport; EvRead Fsrv;
               EvUnlock])
        else (Ret (Some "bind: no ephemeral port"),
              mkWorld (mkSentinel None 0%Z EmptyString None None) h n ps,
              [EvRead Fport])
    | [] => (Ret (Some "bind: no ephemeral port"),
             mkWorld (mkSentinel None 0%Z EmptyString None None) h n ps,
             [EvRead Fport])
    end.
Proof.
  unfold Run. rewrite Start_cases. simpl. unfold server.NewServer, server.listen.
  simpl. destruct (server.ephemeral n) as [| q rest]; [now destruct n |].
  destruct (bool_decide (0 < q <= 65535)%Z && negb (bool_decide (q ∈ server.busy n)));
    [reflexivity | now destruct n].
Qed.

(** ** Listening, querying, closing *)

Lemma parsePort_range (p : string) (q : Z) :
  server.parsePort p = Some q -> (0 <= q <= 65535)%Z.
Proof.
  unfold server.parsePort.
  destruct (NilEmpty.uint_of_string p) as [d |]; [| discriminate].
  simpl. case_bool_decide as Hq; [| discriminate].
  intros [= <-]. split; [| exact Hq].
  unfold Z.of_uint. apply N2Z.is_nonneg.
Qed.

(** Whatever the address, a listener that binds sits on a port between 1
    and 65535 that was free and is now taken. *)
Lemma listen_ok (a : string) (n n' : server.Net) (ta : server.TCPAddr) :
  server.listen a n = (inl ta, n') ->
  (0 < server.Port ta <= 65535)%Z /\
  (server.Port ta ∉ server.busy n) /\
  server.busy n' = server.Port ta :: server.busy n.
Proof.
  unfold server.listen.
  destruct (server.hostport a) as [[host p] |]; [| intros; simplify_eq].
  destruct (server.parsePort p) as [q |] eqn:Ep; [| intros; simplify_eq].
  apply parsePort_range in Ep.
  destruct q as [| q | q]; [| | lia].
  - destruct (server.ephemeral n) as [| q rest]; [intros; simplify_eq |].
    destruct (bool_decide (0 < q <= 65535)%Z) eqn:Eq; simpl;
      [| intros; simplify_eq].
    destruct (bool_decide (q ∈ server.busy n)) eqn:Eb; simpl;
      intros; simplify_eq.
    apply bool_decide_eq_true_1 in Eq. apply bool_decide_eq_false_1 in Eb.
    simpl. repeat split; try assumption; lia.
  - unfold server.bind_port.
    destruct (bool_decide (Z.pos q ∈ server.busy n)) eqn:Eb;
      intros; simplify_eq.
    apply bool_decide_eq_false_1 in Eb.
    simpl. repeat split; try assumption; lia.
Qed.

Lemma listen_local_busy (q : Z) (n : server.Net) :
  (0 < q <= 65535)%Z ->
  q ∈ server.busy n ->
  server.listen ("127.0.0.1:" +:+ Itoa q) n =
    (inr "bind: address already in use", n).
Proof.
  intros Hq Hbusy. unfold server.listen.
  rewrite hostport_local, parsePort_Itoa.
  rewrite bool_decide_eq_true_2 by lia.
  destruct q as [| p | p]; [lia | | lia].
  unfold server.bind_port. now rewrite bool_decide_eq_true_2.
Qed.

Lemma StartAddr_ok (addr : string) (w : World) :
  result (StartAddr addr) w = Ret None ->
  exists ta n',
    server.listen addr (net w) = (inl ta, n') /\
    exec (StartAddr addr) w =
      mkWorld (mkSentinel (Some (server.mkServer ta ["PING"] 0%Z 0%Z))
                          (server.Port ta) (password (this w))
                          (master (this w)) (replicas (this w)))
              (heap w) n' (peers w).
Proof.
  unfold result, exec. rewrite StartAddr_cases. unfold server.NewServer.
  destruct (server.listen addr (net w)) as [[ta | e] n'] eqn:El; simpl;
    intros; simplify_eq.
  exists ta, n'. split; reflexivity.
Qed.

Lemma Start_as_StartAddr (w : World) :
  exec Start w = exec (StartAddr ("127.0.0.1:" +:+ Itoa (port (this w)))) w /\
  result Start w = result (StartAddr ("127.0.0.1:" +:+ Itoa (port (this w)))) w.
Proof.
  unfold exec, result. rewrite Start_cases, StartAddr_cases.
  destruct (server.NewServer _ (net w)) as [[sv | e] n']; split; reflexivity.
Qed.



(** X8. [Start()] on a controller that is already started fails: it binds
    the port the running listener holds.  The error comes back and the
    running listener, the port and everything else stay as they are. *)
Theorem X8_second_Start_fails (w : World) :
  result Start w = Ret None ->
  result Start (exec Start w) = Ret (Some "bind: address already in use") /\
  exec Start (exec Start w) = exec Start w.
Proof.
  intros Hok. destruct (Start_ok w Hok) as (ta & n' & El & ->).
  apply listen_ok in El as (Hrange & _ & Hbusy).
  unfold result, exec. rewrite Start_cases. unfold server.NewServer. simpl.
  rewrite (listen_local_busy (server.Port ta) n' Hrange)
    by (rewrite Hbusy; apply list_elem_of_here).
  split; reflexivity.
Qed.

Lemma X8_witness :
  let w := boot [] [] (server.mkNet [] [49152%Z]) ∅ in
  result Start (exec Start w) = Ret (Some "bind: address already in use") /\
  listening_port (exec Start (exec Start w)) = Some 49152%Z.
Proof.
  intros w.
  assert (Hok : result Start w = Ret None) by (vm_compute; reflexivity).
  destruct (X8_second_Start_fails w Hok) as (Hr & He).
  split; [exact Hr |]. rewrite He. vm_compute. reflexivity.
Defined.

(** X9. [Restart()] keeps the port but not the host.  After a
    [StartAddr(addr)] that succeeded and a [Close()], the port field
    still holds the port the listener of [addr] was bound to, and what
    [Restart()] does is what [StartAddr] does on the address 127.0.0.1
    with that port: the same result and the same state, whatever host
    [addr] named. *)
Theorem X9_Restart_after_StartAddr_is_local (addr : string) (w : World) :
  result (StartAddr addr) w = Ret None ->
  exists q : Z,
    listening_port (exec (StartAddr addr) w) = Some q /\
    port (this (exec Close (exec (StartAddr addr) w))) = q /\
    result Restart (exec Close (exec (StartAddr addr) w)) =
      result (StartAddr ("127.0.0.1:" +:+ Itoa q))
             (exec Close (exec (StartAddr addr) w)) /\
    exec Restart (exec Close (exec (StartAddr addr) w)) =
      exec (StartAddr ("127.0.0.1:" +:+ Itoa q))
           (exec Close (exec (StartAddr addr) w)).
Proof.
  intros Hok. destruct (StartAddr_ok addr w Hok) as (ta & n' & _ & ->).
  exists (server.Port ta).
  set (W := exec Close _).
  assert (Hport : port (this W) = server.Port ta) by reflexivity.
  destruct (Start_as_StartAddr W) as [He Hr]. rewrite Hport in He, Hr.
  split; [reflexivity |]. split; [exact Hport |]. split; [exact Hr | exact He].
Qed.

Lemma X9_witness :
  let w := boot [] [] (server.mkNet [] []) ∅ in
  let W := exec Close (exec (StartAddr "0.0.0.0:6379") w) in
  result (StartAddr "0.0.0.0:6379") w = Ret None /\
  result Restart W = result (StartAddr "127.0.0.1:6379") W.
Proof.
  intros w W.
  assert (Hok : result (StartAddr "0.0.0.0:6379") w = Ret None)
    by (vm_compute; reflexivity).
  destruct (X9_Restart_after_StartAddr_is_local "0.0.0.0:6379" w Hok)
    as (q & H1 & _ & Hr & _).
  assert (Hq : q = 6379%Z) by (vm_compute in H1; congruence).
  subst q. split; [exact Hok | exact Hr].
Defined.

(** X10. [StartAddr] on a controller that is already started takes the
    new listener and drops the old one without closing it.  When two
    [StartAddr] calls succeeded, on two different ports, a [Close()]
    afterwards leaves the controller without listener and releases the
    port of the second listener only: the port of the first one is still
    bound. *)
Theorem X10_StartAddr_twice_leaks_first_listener
    (a1 a2 : string) (w : World) (p1 p2 : Z) :
  result (StartAddr a1) w = Ret None ->
  result (StartAddr a2) (exec (StartAddr a1) w) = Ret None ->
  listening_port (exec (StartAddr a1) w) = Some p1 ->
  listening_port (exec (StartAddr a2) (exec (StartAddr a1) w)) = Some p2 ->
  p1 <> p2 ->
  srv (this (exec Close (exec (StartAddr a2) (exec (StartAddr a1) w)))) = None /\
  (p2 ∉ server.busy
          (net (exec Close (exec (StartAddr a2) (exec (StartAddr a1) w))))) /\
  p1 ∈ server.busy
         (net (exec Close (exec (StartAddr a2) (exec (StartAddr a1) w)))).
Proof.
  intros H1. destruct (StartAddr_ok a1 w H1) as (t1 & n1 & El1 & ->).
  intros H2. destruct (StartAddr_ok a2 _ H2) as (t2 & n2 & El2 & ->).
  simpl in El2. intros [= <-] [= <-] Hne.
  apply listen_ok in El1 as (_ & _ & Hb1).
  apply listen_ok in El2 as (_ & _ & Hb2).
  split; [reflexivity |]. split.
  - apply (Close_releases (server.mkServer t2 ["PING"] 0%Z 0%Z) n2).
  - unfold exec. simpl. apply list_elem_of_filter. split; [exact Hne |].
    rewrite Hb2, Hb1. apply list_elem_of_further, list_elem_of_here.
Qed.

Lemma X10_witness :
  let w := boot [] [] (server.mkNet [] []) ∅ in
  let w' := exec Close (exec (StartAddr ":7001") (exec (StartAddr ":7000") w)) in
  srv (this w') = None /\ 7000%Z ∈ server.busy (net w').
Proof.
  intros w w'.
  assert (H1 : result (StartAddr ":7000") w = Ret None)
    by (vm_compute; reflexivity).
  assert (H2 : result (StartAddr ":7001") (exec (StartAddr ":7000") w) = Ret None)
    by (vm_compute; reflexivity).
  assert (Hne : 7000%Z <> 7001%Z) by lia.
  destruct (X10_StartAddr_twice_leaks_first_listener ":7000" ":7001" w
              7000%Z 7001%Z H1 H2 eq_refl eq_refl Hne) as (Hs & _ & Hin).
  split; [exact Hs | exact Hin].
Defined.

(** X11. [Close()] releases the port of the listener it detaches, and a
    second [Close()] is a no-op: it returns having only taken and
    released the mutex around one read of the listener field. *)
Theorem X11_Close_releases_and_is_idempotent (w : World) (x : server.Server) :
  srv (this w) = Some x ->
  (server.Port (server.Addr x) ∉ server.busy (net (exec Close w))) /\
  server.ephemeral (net (exec Close w)) = server.ephemeral (net w) /\
  Close (exec Close w) = (Ret tt, exec Close w, [EvLock; EvRead Fsrv; EvUnlock]).
Proof.
  intros Hx. destruct w as [[sv pt pw m rs] h n ps]. simpl in Hx. subst sv.
  split; [apply (Close_releases x n) |]. split; reflexivity.
Qed.

Lemma X11_witness :
  let w := exec Start (boot [] [] (server.mkNet [] [49152%Z]) ∅) in
  server.busy (net w) = [49152%Z] /\
  (49152%Z ∉ server.busy (net (exec Close w))) /\
  exec Close (exec Close w) = exec Close w.
Proof.
  intros w.
  destruct (X11_Close_releases_and_is_idempotent w
              (server.mkServer (server.mkTCPAddr "127.0.0.1" 49152) ["PING"] 0%Z 0%Z)
              eq_refl) as (Hfree & _ & Hidem).
  split; [reflexivity |]. split; [exact Hfree |].
  unfold exec at 1. now rewrite Hidem.
Defined.

Lemma queries_id (w : World) :
  exec Master w = w /\
  exec Replicas w = w /\
  exec Addr w = w /\
  exec Host w = w /\
  exec Port w = w /\
  exec CurrentConnectionCount w = w /\
  exec TotalConnectionCount w = w.
Proof. destruct w as [[[x |] pt pw m rs] h n ps]; repeat split. Qed.

(** X12. The queries are read-only: [Master], [Replicas], [Addr], [Host],
    [Port], [CurrentConnectionCount] and [TotalConnectionCount] leave
    controller, heap, listener table and connections exactly as they
    were, also when they end in a panic. *)
Theorem X12_queries_change_nothing (w : World) :
  exec Master w = w /\
  exec Replicas w = w /\
  exec Addr w = w /\
  exec Host w = w /\
  exec Port w = w /\
  exec CurrentConnectionCount w = w /\
  exec TotalConnectionCount w = w.
Proof.
  destruct w as [[sv pt pw m rs] h n ps].
  destruct sv as [x |]; repeat split.
Qed.

(** ** Authentication *)

Lemma handleAuth_live (c : nat) (p : server.Peer) (w : World) :
  peers w !! c = Some p ->
  handleAuth c w =
    if decide (password (this w) = EmptyString) then (Ret true, w, auth_log)
    else if is_authenticated c w then (Ret true, w, auth_log)
    else (Ret false,
          mkWorld (this w) (heap w) (net w)
            (<[c := server.mkPeer (Some (mkConnCtx false))
                      (server.written p ++ [noauth])]> (peers w)),
          auth_log).
Proof.
  intros Hp. rewrite (is_authenticated_peer _ _ _ Hp).
  destruct w as [s h n ps]. simpl in *.
  unfold handleAuth, locked, bind, load. simpl.
  destruct (decide (password s = EmptyString)); [reflexivity |].
  unfold getCtx, bind, peer, set_peer, ret. simpl. rewrite Hp.
  destruct p as [[[[] ] | ] out]; simpl.
  - reflexivity.
  - rewrite Hp. reflexivity.
  - rewrite lookup_insert_eq. simpl. now rewrite insert_insert_eq.
Qed.

Lemma handleAuth_dangling (c : nat) (w : World) :
  peers w !! c = None ->
  handleAuth c w =
    if decide (password (this w) = EmptyString) then (Ret true, w, auth_log)
    else (Panic nil_deref, w, auth_log).
Proof.
  intros Hp. destruct w as [s h n ps]. simpl in *.
  unfold handleAuth, locked, bind, load. simpl.
  destruct (decide (password s = EmptyString)); [reflexivity |].
  unfold getCtx, bind, peer. simpl. now rewrite Hp.
Qed.

Lemma steps_keep_flag (spare : nat -> nat -> nat) (ops : list Op) (c : nat)
    (w : World) :
  is_authenticated c w = true -> is_authenticated c (steps spare ops w) = true.
Proof.
  revert w. induction ops as [| o ops IH]; intros w Hc; simpl.
  - exact Hc.
  - apply IH. now apply step_keeps_flag.
Qed.

Lemma is_authenticated_live (c : nat) (w : World) :
  is_authenticated c w = true -> exists p, peers w !! c = Some p.
Proof.
  unfold is_authenticated. destruct (peers w !! c) as [p |]; [eauto | discriminate].
Qed.

(** X13. The auth check never grants and never revokes: after
    [handleAuth] on any connection every connection's authenticated flag
    is what it was, and controller, heap and listener table are untouched.
    With a password set, a pointer to no connection makes it panic, with
    the mutex released and nothing changed; without a password it returns
    true even then. *)
Theorem X13_handleAuth_never_changes_a_flag (c c' : nat) (w : World) :
  is_authenticated c (exec (handleAuth c') w) = is_authenticated c w /\
  this (exec (handleAuth c') w) = this w /\
  heap (exec (handleAuth c') w) = heap w /\
  net (exec (handleAuth c') w) = net w /\
  (peers w !! c' = None ->
   handleAuth c' w =
     if decide (password (this w) = EmptyString) then (Ret true, w, auth_log)
     else (Panic nil_deref, w, auth_log)).
Proof.
  assert (Hcases : (exists p, peers w !! c' = Some p) \/ peers w !! c' = None)
    by (destruct (peers w !! c'); eauto).
  split; [| split; [| split; [| split]]]; [ | | | | apply handleAuth_dangling].
  all: unfold exec; destruct Hcases as [[p Hp] | Hp];
    [ rewrite (handleAuth_live c' p w Hp)
    | rewrite (handleAuth_dangling c' w Hp) ];
    destruct (decide (password (this w) = EmptyString)) as [Epw | Npw];
    try reflexivity;
    destruct (is_authenticated c' w) eqn:Hf; try reflexivity.
  simpl. destruct w as [s h nt ps]. rewrite is_authenticated_insert.
  destruct (decide (c' = c)) as [-> | Hne]; [now rewrite Hf | reflexivity].
Qed.

Lemma setAuthenticated_live (c : nat) (p : server.Peer) (w : World) :
  peers w !! c = Some p ->
  setAuthenticated c w =
    (Ret tt,
     mkWorld (this w) (heap w) (net w)
       (<[c := server.mkPeer (Some (mkConnCtx true)) (server.written p)]> (peers w)),
     []).
Proof.
  intros Hp. destruct w as [s h n ps]. simpl in *.
  unfold setAuthenticated, getCtx, bind, peer, set_peer, ret. simpl. rewrite Hp.
  destruct p as [[x |] out]; simpl.
  - rewrite Hp. reflexivity.
  - rewrite lookup_insert_eq. simpl. now rewrite insert_insert_eq.
Qed.

(** X14. [setAuthenticated(c)] sets the flag of connection [c] and
    nothing else: the replies written to [c], every other connection, the
    controller, the heap and the listener table are as before.  On a
    pointer to no connection it panics and changes nothing. *)
Theorem X14_setAuthenticated_marks_one_connection (c : nat) (w : World) :
  (forall p, peers w !! c = Some p ->
     result (setAuthenticated c) w = Ret tt /\
     is_authenticated c (exec (setAuthenticated c) w) = true /\
     replies c (exec (setAuthenticated c) w) = replies c w /\
     (forall c', c' <> c ->
        peers (exec (setAuthenticated c) w) !! c' = peers w !! c') /\
     this (exec (setAuthenticated c) w) = this w /\
     heap (exec (setAuthenticated c) w) = heap w /\
     net (exec (setAuthenticated c) w) = net w) /\
  (peers w !! c = None ->
     setAuthenticated c w = (Panic nil_deref, w, [])).
Proof.
  split.
  - intros p Hp. unfold result, exec. rewrite (setAuthenticated_live c p w Hp).
    simpl. repeat split.
    + unfold is_authenticated. simpl. now rewrite lookup_insert_eq.
    + unfold replies. simpl. now rewrite lookup_insert_eq, Hp.
    + intros c' Hne. now apply lookup_insert_ne.
  - intros Hp. destruct w as [s h n ps]. simpl in *.
    unfold setAuthenticated, getCtx, bind, peer. simpl. now rewrite Hp.
Qed.

Lemma X14_witness :
  let w := mkWorld (mkSentinel None 0%Z "secret" None None) []
                   (server.mkNet [] [])
                   {[ 1%nat := server.mkPeer None [noauth] ]} in
  is_authenticated 1 w = false /\
  is_authenticated 1 (exec (setAuthenticated 1) w) = true /\
  replies 1 (exec (setAuthenticated 1) w) = [noauth] /\
  setAuthenticated 2 w = (Panic nil_deref, w, []).
Proof.
  intros w.
  destruct (X14_setAuthenticated_marks_one_connection 1 w) as (Hlive & _).
  destruct (X14_setAuthenticated_marks_one_connection 2 w) as (_ & Hnone).
  destruct (Hlive (server.mkPeer None [noauth]) eq_refl) as (_ & Hf & Hr & _).
  split; [reflexivity |]. split; [exact Hf |]. split; [exact Hr |].
  apply Hnone. reflexivity.
Defined.

(** X15. Once [setAuthenticated(c)] has run on a live connection, the auth
    check on [c] returns true and writes nothing, under every password
    and after every sequence of operations in between, password changes
    and topology changes included. *)
Theorem X15_authenticated_connection_passes
    (spare : nat -> nat -> nat) (ops : list Op) (c : nat) (p : server.Peer)
    (w : World) :
  peers w !! c = Some p ->
  result (handleAuth c) (steps spare ops (exec (setAuthenticated c) w)) = Ret true /\
  exec (handleAuth c) (steps spare ops (exec (setAuthenticated c) w)) =
    steps spare ops (exec (setAuthenticated c) w).
Proof.
  intros Hp.
  assert (Hf : is_authenticated c (exec (setAuthenticated c) w) = true).
  { unfold exec. rewrite (setAuthenticated_live c p w Hp).
    unfold is_authenticated. simpl. now rewrite lookup_insert_eq. }
  apply (steps_keep_flag spare ops) in Hf.
  set (W := steps spare ops (exec (setAuthenticated c) w)) in *.
  destruct (is_authenticated_live _ _ Hf) as (p' & Hp').
  unfold result, exec. rewrite (handleAuth_live c p' W Hp'), Hf.
  destruct (decide _); split; reflexivity.
Qed.

Lemma X15_witness :
  let w := mkWorld (mkSentinel None 0%Z "secret" None None) []
                   (server.mkNet [] []) {[ 1%nat := server.mkPeer None [] ]} in
  let ops := [OpRequireAuth "other"; OpWithMaster (Some 3); OpAddReplica (Some 4)] in
  result (handleAuth 1) w = Ret false /\
  result (handleAuth 1) (steps (fun old _ => old) ops (exec (setAuthenticated 1) w)) =
    Ret true.
Proof.
  intros w ops. split; [vm_compute; reflexivity |].
  apply (X15_authenticated_connection_passes (fun old _ => old) ops 1
           (server.mkPeer None []) w).
  reflexivity.
Defined.

Lemma X13_witness :
  let w := mkWorld (mkSentinel None 0%Z "secret" None None) []
                   (server.mkNet [] []) {[ 1%nat := server.mkPeer None [] ]} in
  is_authenticated 1 (exec (handleAuth 1) w) = false /\
  handleAuth 2 w = (Panic nil_deref, w, auth_log).
Proof.
  intros w.
  destruct (X13_handleAuth_never_changes_a_flag 1 1 w) as (Hf & _).
  destruct (X13_handleAuth_never_changes_a_flag 1 2 w) as (_ & _ & _ & _ & Hd).
  split; [rewrite Hf; reflexivity |].
  rewrite (Hd eq_refl). reflexivity.
Defined.

Lemma denials (c : nat) (n : nat) (w : World) (p : server.Peer) :
  peers w !! c = Some p ->
  password (this w) <> EmptyString ->
  is_authenticated c w = false ->
  let w' := Nat.iter n (exec (handleAuth c)) w in
  replies c w' = server.written p ++ replicate n noauth /\
  is_authenticated c w' = false /\
  this w' = this w /\
  (exists p', peers w' !! c = Some p').
Proof.
  intros Hp Hpw Hf. induction n as [| n IH]; simpl.
  - unfold replies. rewrite Hp, app_nil_r. eauto.
  - destruct IH as (Hr & Hf' & Ht & p' & Hp').
    set (W := Nat.iter n (exec (handleAuth c)) w) in *.
    unfold exec. rewrite (handleAuth_live c p' W Hp'), Ht, Hf'.
    destruct (decide (password (this w) = EmptyString)); [contradiction |].
    simpl. split; [| split; [| split]].
    + unfold replies in *. simpl. rewrite lookup_insert_eq. simpl.
      rewrite Hp' in Hr. rewrite Hr, replicate_cons_app. now rewrite app_assoc.
    + unfold is_authenticated. simpl. now rewrite lookup_insert_eq.
    + reflexivity.
    + rewrite lookup_insert_eq. eauto.
Qed.

(** X16. Denials pile up: with a password set, [n] auth checks on a
    connection that has not authenticated all return false and leave on
    the connection the replies it had followed by [n] NOAUTH errors; the
    connection stays open and unauthenticated. *)
Theorem X16_each_denial_writes_one_NOAUTH
    (c : nat) (n : nat) (w : World) (p : server.Peer) :
  peers w !! c = Some p ->
  password (this w) <> EmptyString ->
  is_authenticated c w = false ->
  replies c (Nat.iter n (exec (handleAuth c)) w) =
    server.written p ++ replicate n noauth /\
  result (handleAuth c) (Nat.iter n (exec (handleAuth c)) w) = Ret false /\
  is_authenticated c (Nat.iter n (exec (handleAuth c)) w) = false.
Proof.
  intros Hp Hpw Hf.
  destruct (denials c n w p Hp Hpw Hf) as (Hr & Hf' & Ht & p' & Hp').
  split; [exact Hr |]. split; [| exact Hf'].
  set (W := Nat.iter n (exec (handleAuth c)) w) in *.
  unfold result. rewrite (handleAuth_live c p' W Hp'), Ht, Hf'.
  destruct (decide (password (this w) = EmptyString)); [contradiction | reflexivity].
Qed.

Lemma X16_witness :
  let w := mkWorld (mkSentinel None 0%Z "secret" None None) []
                   (server.mkNet [] []) {[ 1%nat := server.mkPeer None [] ]} in
  replies 1 (Nat.iter 3 (exec (handleAuth 1)) w) = [noauth; noauth; noauth].
Proof.
  intros w.
  assert (Hpw : password (this w) <> EmptyString) by discriminate.
  destruct (X16_each_denial_writes_one_NOAUTH 1 3 w (server.mkPeer None [])
              eq_refl Hpw eq_refl) as (Hr & _).
  exact Hr.
Defined.

Lemma getCtx_live (c : nat) (p : server.Peer) (w : World) :
  peers w !! c = Some p ->
  getCtx c w =
    (Ret (mkConnCtx (is_authenticated c w)),
     match server.Ctx p with
     | Some _ => w
     | None =>
         mkWorld (this w) (heap w) (net w)
           (<[c := server.mkPeer (Some (mkConnCtx false)) (server.written p)]>
              (peers w))
     end,
     []).
Proof.
  intros Hp. rewrite (is_authenticated_peer _ _ _ Hp).
  destruct w as [s h n ps]. simpl in *.
  unfold getCtx, bind, peer, set_peer, ret. simpl. rewrite Hp.
  destruct p as [[[b] |] out]; reflexivity.
Qed.

(** X17. [getCtx(c)] returns the context of a live connection, making an
    unauthenticated one on first use: what it returns holds the
    connection's flag, it changes no flag and writes no reply, a second
    call changes nothing any more, and afterwards the connection does
    have a context. *)
Theorem X17_getCtx_is_lazy_and_idempotent (c : nat) (p : server.Peer) (w : World) :
  peers w !! c = Some p ->
  result (getCtx c) w = Ret (mkConnCtx (is_authenticated c w)) /\
  (forall c', is_authenticated c' (exec (getCtx c) w) = is_authenticated c' w) /\
  replies c (exec (getCtx c) w) = replies c w /\
  exec (getCtx c) (exec (getCtx c) w) = exec (getCtx c) w /\
  (exists p', peers (exec (getCtx c) w) !! c = Some p' /\
              server.Ctx p' = Some (mkConnCtx (is_authenticated c w))).
Proof.
  intros Hp.
  assert (R : result (getCtx c) w = Ret (mkConnCtx (is_authenticated c w)))
    by (unfold result; now rewrite (getCtx_live c p w Hp)).
  split; [exact R |].
  destruct (server.Ctx p) as [x |] eqn:Ec.
  - assert (E : exec (getCtx c) w = w)
      by (unfold exec; now rewrite (getCtx_live c p w Hp), Ec).
    rewrite !E. repeat split; try reflexivity.
    exists p. split; [exact Hp |].
    rewrite (is_authenticated_peer _ _ _ Hp), Ec. now destruct x.
  - set (p1 := server.mkPeer (Some (mkConnCtx false)) (server.written p)).
    set (w1 := mkWorld (this w) (heap w) (net w) (<[c := p1]> (peers w))).
    assert (E : exec (getCtx c) w = w1)
      by (unfold exec; now rewrite (getCtx_live c p w Hp), Ec).
    assert (Hp1 : peers w1 !! c = Some p1) by apply lookup_insert_eq.
    assert (E1 : exec (getCtx c) w1 = w1)
      by (unfold exec; now rewrite (getCtx_live c p1 w1 Hp1)).
    rewrite !E, E1. split; [| split; [| split]].
    + intros c'. destruct w as [s h n ps]. unfold w1. simpl.
      rewrite is_authenticated_insert.
      destruct (decide (c = c')) as [<- | Hne]; [| reflexivity].
      simpl. unfold is_authenticated. simpl in *. now rewrite Hp, Ec.
    + unfold replies. rewrite Hp1, Hp. reflexivity.
    + reflexivity.
    + exists p1. split; [exact Hp1 |].
      rewrite (is_authenticated_peer _ _ _ Hp), Ec. reflexivity.
Qed.

Lemma X17_witness :
  let w := mkWorld (mkSentinel None 0%Z "secret" None None) []
                   (server.mkNet [] []) {[ 1%nat := server.mkPeer None [] ]} in
  result (getCtx 1) w = Ret (mkConnCtx false) /\
  exec (getCtx 1) (exec (getCtx 1) w) = exec (getCtx 1) w.
Proof.
  intros w.
  destruct (X17_getCtx_is_lazy_and_idempotent 1 (server.mkPeer None []) w eq_refl)
    as (Hr & _ & _ & Hi & _).
  split; [exact Hr | exact Hi].
Defined.

(** X18. A password change takes effect at the very next auth check: on
    a live connection, [handleAuth] right after [RequireAuth(pw)] returns
    true exactly when [pw] is empty or the connection has authenticated;
    [RequireAuth] itself touches nothing but the password. *)
Theorem X18_RequireAuth_takes_effect_at_once
    (pw : string) (c : nat) (p : server.Peer) (w : World) :
  peers w !! c = Some p ->
  result (handleAuth c) (exec (RequireAuth pw) w) =
    Ret (bool_decide (pw = EmptyString) || is_authenticated c w) /\
  exec (RequireAuth pw) w =
    mkWorld (mkSentinel (srv (this w)) (port (this w)) pw (master (this w))
                        (replicas (this w)))
            (heap w) (net w) (peers w).
Proof.
  intros Hp. split; [| reflexivity].
  set (W := exec (RequireAuth pw) w).
  assert (HpW : peers W !! c = Some p) by exact Hp.
  unfold result. rewrite (handleAuth_live c p W HpW).
  assert (Hf : is_authenticated c W = is_authenticated c w) by reflexivity.
  rewrite Hf. change (password (this W)) with pw.
  destruct (decide (pw = EmptyString)) as [E | N].
  - now rewrite bool_decide_eq_true_2.
  - rewrite bool_decide_eq_false_2 by exact N.
    destruct (is_authenticated c w); reflexivity.
Qed.

Lemma X18_witness :
  let w := mkWorld (mkSentinel None 0%Z EmptyString None None) []
                   (server.mkNet [] []) {[ 1%nat := server.mkPeer None [] ]} in
  result (handleAuth 1) w = Ret true /\
  result (handleAuth 1) (exec (RequireAuth "secret") w) = Ret false /\
  result (handleAuth 1) (exec (RequireAuth EmptyString) (exec (RequireAuth "secret") w)) =
    Ret true.
Proof.
  intros w.
  destruct (X18_RequireAuth_takes_effect_at_once "secret" 1
              (server.mkPeer None []) w eq_refl) as (H1 & _).
  destruct (X18_RequireAuth_takes_effect_at_once EmptyString 1
              (server.mkPeer None []) (exec (RequireAuth "secret") w) eq_refl)
    as (H2 & _).
  split; [vm_compute; reflexivity |]. split; [exact H1 | exact H2].
Defined.

(** ** The mutex *)

Lemma peer_ops_quiet (c : nat) (w : World) :
  log (getCtx c) w = [] /\ log (setAuthenticated c) w = [] /\
  log (handleAuth c) w = auth_log.
Proof.
  destruct (peers w !! c) as [p |] eqn:Hp.
  - unfold log. rewrite (getCtx_live c p w Hp), (setAuthenticated_live c p w Hp),
      (handleAuth_live c p w Hp).
    repeat split. repeat case_match; reflexivity.
  - unfold log. rewrite (handleAuth_dangling c w Hp).
    destruct w as [s h n ps]. simpl in Hp.
    unfold setAuthenticated, getCtx, bind, peer. simpl. rewrite Hp.
    repeat split. case_match; reflexivity.
Qed.

(** X19. No call leaves the mutex held and none takes it twice: in the
    access log of every operation [Lock] and [Unlock] alternate, starting
    with [Lock], and the log ends with the mutex free.  That covers the
    calls that end in a panic (the deferred [Unlock] runs) and both ways
    out of [Close]. *)
Theorem X19_mutex_is_free_after_every_call
    (spare : nat -> nat -> nat) (w : World) (o : Op) :
  balanced (op_log spare w o) = true.
Proof.
  destruct o; simpl; try reflexivity.
  - unfold log. now rewrite AddReplica_spec.
  - unfold log. rewrite Start_cases.
    destruct (server.NewServer _ (net w)) as [[sv | e] n']; reflexivity.
  - unfold log. rewrite StartAddr_cases.
    destruct (server.NewServer _ (net w)) as [[sv | e] n']; reflexivity.
  - unfold log, Restart. rewrite Start_cases.
    destruct (server.NewServer _ (net w)) as [[sv | e] n']; reflexivity.
  - destruct w as [[[x |] pt pw m rs] h n ps]; reflexivity.
  - destruct w as [[[x |] pt pw m rs] h n ps]; reflexivity.
  - destruct w as [[[x |] pt pw m rs] h n ps]; reflexivity.
  - destruct w as [[[x |] pt pw m rs] h n ps]; reflexivity.
  - destruct w as [[[x |] pt pw m rs] h n ps]; reflexivity.
  - destruct w as [[[x |] pt pw m rs] h n ps]; reflexivity.
  - destruct (peer_ops_quiet c w) as (_ & _ & ->). reflexivity.
  - destruct (peer_ops_quiet c w) as (-> & _ & _). reflexivity.
  - destruct (peer_ops_quiet c w) as (_ & -> & _). reflexivity.
Qed.

(** ** Reachable states *)

Lemma peer_ops_frame (c : nat) (w : World) :
  (this (exec (getCtx c) w) = this w /\ net (exec (getCtx c) w) = net w) /\
  (this (exec (setAuthenticated c) w) = this w /\
   net (exec (setAuthenticated c) w) = net w) /\
  (this (exec (handleAuth c) w) = this w /\ net (exec (handleAuth c) w) = net w).
Proof.
  destruct (peers w !! c) as [p |] eqn:Hp.
  - unfold exec. rewrite (getCtx_live c p w Hp), (setAuthenticated_live c p w Hp),
      (handleAuth_live c p w Hp).
    repeat split; repeat case_match; reflexivity.
  - unfold exec. rewrite (handleAuth_dangling c w Hp).
    destruct w as [s h n ps]. simpl in Hp.
    unfold setAuthenticated, getCtx, bind, peer. simpl. rewrite Hp.
    repeat split; case_match; reflexivity.
Qed.

Lemma port_ok_frame (w w' : World) :
  this w' = this w -> port_ok w -> port_ok w'.
Proof. unfold port_ok. now intros ->. Qed.

Lemma StartAddr_port_ok (a : string) (w : World) :
  port_ok w -> port_ok (exec (StartAddr a) w).
Proof.
  intros Hw. unfold exec. rewrite StartAddr_cases.
  destruct (server.NewServer a (net w)) as [[sv | e] n'].
  - reflexivity.
  - exact Hw.
Qed.

Lemma Start_port_ok (w : World) : port_ok w -> port_ok (exec Start w).
Proof.
  intros Hw. destruct (Start_as_StartAddr w) as [-> _].
  now apply StartAddr_port_ok.
Qed.

Lemma Close_port_ok (w : World) : port_ok (exec Close w).
Proof. unfold port_ok. destruct (Close_spec w) as (_ & -> & _). exact I. Qed.

Lemma boot_port_ok (opts : list options.Option) (h : Heap) (n : server.Net)
    (ps : gmap nat server.Peer) :
  port_ok (boot opts h n ps).
Proof.
  unfold boot, port_ok, NewSentinel. simpl.
  destruct (options.master (options.GetOpts opts));
    destruct (options.replicas (options.GetOpts opts)); exact I.
Qed.

Lemma step_port_ok (spare : nat -> nat -> nat) (w : World) (o : Op) :
  port_ok w -> port_ok (step spare w o).
Proof.
  intros Hw. destruct (queries_id w) as (Q1 & Q2 & Q3 & Q4 & Q5 & Q6 & Q7).
  destruct o; simpl; rewrite ?Q1, ?Q2, ?Q3, ?Q4, ?Q5, ?Q6, ?Q7;
    first
      [ exact Hw
      | apply boot_port_ok
      | apply (port_ok_frame w); [reflexivity | exact Hw]
      | unfold exec; rewrite AddReplica_spec; exact Hw
      | now apply Start_port_ok
      | now apply StartAddr_port_ok
      | apply Close_port_ok
      | apply (port_ok_frame w); [apply peer_ops_frame | exact Hw] ].
Qed.

Lemma steps_port_ok (spare : nat -> nat -> nat) (ops : list Op) (w : World) :
  port_ok w -> port_ok (steps spare ops w).
Proof.
  revert w. induction ops as [| o ops IH]; intros w Hw; simpl.
  - exact Hw.
  - apply IH. now apply step_port_ok.
Qed.

(** X20. In every state a new controller can reach through the
    operations of the core, a controller that holds a listener has that
    listener's port in its port field: [start] stores both under one
    lock, [Close] keeps the port, and nothing else writes either.  So
    [Port()] shows the port field, and [Start()] (or [Restart()]) in such
    a state does what [StartAddr] does on the address 127.0.0.1 with the
    listener's port. *)
Theorem X20_listener_and_port_field_agree
    (spare : nat -> nat -> nat) (ops : list Op) (opts : list options.Option)
    (h : Heap) (n : server.Net) (ps : gmap nat server.Peer) (x : server.Server) :
  srv (this (steps spare ops (boot opts h n ps))) = Some x ->
  port (this (steps spare ops (boot opts h n ps))) = server.Port (server.Addr x) /\
  result Port (steps spare ops (boot opts h n ps)) =
    Ret (Itoa (port (this (steps spare ops (boot opts h n ps))))) /\
  result Start (steps spare ops (boot opts h n ps)) =
    result (StartAddr ("127.0.0.1:" +:+ Itoa (server.Port (server.Addr x))))
           (steps spare ops (boot opts h n ps)) /\
  exec Start (steps spare ops (boot opts h n ps)) =
    exec (StartAddr ("127.0.0.1:" +:+ Itoa (server.Port (server.Addr x))))
         (steps spare ops (boot opts h n ps)).
Proof.
  intros Hx.
  pose proof (steps_port_ok spare ops _ (boot_port_ok opts h n ps)) as Hw.
  set (W := steps spare ops (boot opts h n ps)) in *.
  unfold port_ok in Hw. rewrite Hx in Hw.
  destruct (Start_as_StartAddr W) as [He Hr]. rewrite Hw in He, Hr.
  split; [exact Hw |]. split; [| split; [exact Hr | exact He]].
  destruct W as [[sv pt pw m rs] h' n' ps']. simpl in *. subst sv.
  unfold result. simpl. now rewrite Hw.
Qed.

Lemma X20_witness :
  let ops := [OpStart; OpRequireAuth "pw"; OpClose; OpStartAddr ":7000";
              OpAddReplica (Some 1)] in
  let w := steps (fun old _ => old) ops (boot [] [] (server.mkNet [] [49152%Z]) ∅) in
  port (this w) = 7000%Z /\ result Port w = Ret "7000".
Proof.
  intros ops w.
  destruct (X20_listener_and_port_field_agree (fun old _ => old) ops [] []
              (server.mkNet [] [49152%Z]) ∅
              (server.mkServer (server.mkTCPAddr "::" 7000) ["PING"] 0%Z 0%Z)
              eq_refl) as (Hp & Hq & _).
  split; [exact Hp |]. etrans; [exact Hq |]. now rewrite Hp.
Defined.

(** ** The wrong-number-of-arguments message *)

Lemma lowerByte_ascii (c : ascii) :
  (nat_of_ascii c <? 128)%nat = true ->
  (nat_of_ascii (lowerByte c) <? 128)%nat = true /\
  lowerByte (lowerByte c) = lowerByte c.
Proof.
  destruct c as [[] [] [] [] [] [] [] []]; intros H; try discriminate H;
    split; reflexivity.
Qed.

Lemma mapBytes_lower_ascii (s : string) :
  isASCII s = true ->
  isASCII (mapBytes lowerByte s) = true /\
  mapBytes lowerByte (mapBytes lowerByte s) = mapBytes lowerByte s.
Proof.
  induction s as [| c s IH]; simpl; [now split |].
  intros H. apply andb_true_iff in H as [Hc Hs].
  destruct (lowerByte_ascii c Hc) as [H1 H2].
  destruct (IH Hs) as [I1 I2].
  now rewrite H1, I1, H2, I2.
Qed.

(** X21. For a command name of ASCII bytes the message carries the name
    with its capital letters lowered and every other byte as it is, so
    names that differ in case only get the same message, and lowering the
    name beforehand changes nothing. *)
Theorem X21_errWrongNumber_ignores_case
    (unicodeToLower : string -> string) (cmd : string) :
  isASCII cmd = true ->
  errWrongNumber unicodeToLower cmd =
    "ERR wrong number of arguments for '" +:+ mapBytes lowerByte cmd +:+ "' command" /\
  errWrongNumber unicodeToLower (ToLower unicodeToLower cmd) =
    errWrongNumber unicodeToLower cmd /\
  (forall cmd',
     isASCII cmd' = true ->
     mapBytes lowerByte cmd' = mapBytes lowerByte cmd ->
     errWrongNumber unicodeToLower cmd' = errWrongNumber unicodeToLower cmd).
Proof.
  intros Ha. destruct (mapBytes_lower_ascii cmd Ha) as [H1 H2].
  unfold errWrongNumber, ToLower. rewrite Ha, H1, H2.
  repeat split. intros cmd' Ha' Heq. now rewrite Ha', Heq.
Qed.

Lemma X21_witness :
  errWrongNumber (fun s => s) "PING" =
    "ERR wrong number of arguments for 'ping' command" /\
  errWrongNumber (fun s => s) "Sentinel" = errWrongNumber (fun s => s) "SENTINEL".
Proof.
  destruct (X21_errWrongNumber_ignores_case (fun s => s) "PING" eq_refl)
    as (Hshape & _ & _).
  destruct (X21_errWrongNumber_ignores_case (fun s => s) "SENTINEL" eq_refl)
    as (_ & _ & Hcase).
  split; [exact Hshape |]. apply Hcase; reflexivity.
Defined.
